(** * Resource allocation game: a shallow embedding of [main.py]

    The program simulates a repeated game: agents bid for a replenishing
    pool of resources, the pool rations the bids, a proportional value
    share is computed from the contributions and every agent adapts its
    bidding strategy to the sign of its reward.

    Numbers are modelled in exact arithmetic as rationals ([Q]); the
    literals [1.1], [0.9] and [1.0] are the rationals 11/10, 9/10 and 1.
    Python objects live in a store indexed by references, a [dict] is an
    insertion-ordered association list, and an exception is a [Raise]
    result.  Console output ([print]) carries no state and is left out.
    A second model, [Binary64], runs the same program on binary64
    numbers; it shows where rounding, overflow and NaN part the code
    from its exact reading. *)

From Stdlib Require Import QArith Qminmax Lqa List String Bool Arith Lia.
From Stdlib Require Import Permutation Sorted Znat.
From Stdlib Require PrimFloat.
Import ListNotations.
Open Scope list_scope.
Open Scope Q_scope.

(** ** Exceptions *)

Inductive exn : Set :=
| ZeroDivisionError
| KeyError.

Inductive result (A : Type) : Type :=
| Ok (a : A)
| Raise (e : exn).

Arguments Ok {A} a.
Arguments Raise {A} e.

Definition bind {A B : Type} (m : result A) (k : A -> result B) : result B :=
  match m with
  | Ok a => k a
  | Raise e => Raise e
  end.

Notation "x <- m ;; k" := (bind m (fun x => k))
  (at level 61, m at next level, right associativity).
Notation "' p <- m ;; k" := (bind m (fun x => let p := x in k))
  (at level 61, p pattern, m at next level, right associativity).

(** ** Python arithmetic on exact numbers *)

(** [x < y] as Python evaluates it. *)
Definition Qltb (x y : Q) : bool := negb (Qle_bool y x).

(** [x / y]: true division, raising on a zero divisor. *)
Definition truediv (x y : Q) : result Q :=
  if Qeq_bool y 0 then Raise ZeroDivisionError else Ok (x / y).

(** [min(x, y)]: the first argument unless the second is strictly smaller. *)
Definition pymin (x y : Q) : Q := if Qltb y x then y else x.

(** [sum(xs)]: left-to-right accumulation starting from [0]. *)
Definition pysum (xs : list Q) : Q := fold_left Qplus xs 0.

(** ** Objects, references and dictionaries *)

(** Keys of a dictionary: a type with a decidable equality.  Agents are
    hashed by identity (the class defines neither [__eq__] nor
    [__hash__]), names by their characters. *)
Class Hashable (K : Type) : Type := {
  key_eqb : K -> K -> bool;
  key_eqb_spec : forall x y : K, reflect (x = y) (key_eqb x y)
}.

Definition ref : Set := nat.

#[export] Instance Hashable_ref : Hashable ref :=
  {| key_eqb := Nat.eqb; key_eqb_spec := Nat.eqb_spec |}.

#[export] Instance Hashable_string : Hashable string :=
  {| key_eqb := String.eqb; key_eqb_spec := String.eqb_spec |}.

(** A dictionary, in insertion order. *)
Definition dict (K V : Type) : Type := list (K * V).

Definition keys {K V : Type} (d : dict K V) : list K := map fst d.
Definition values {K V : Type} (d : dict K V) : list V := map snd d.

(** [d[k]] *)
Fixpoint dict_get {K V : Type} `{Hashable K} (k : K) (d : dict K V) : result V :=
  match d with
  | [] => Raise KeyError
  | (k', v) :: d' => if key_eqb k k' then Ok v else dict_get k d'
  end.

(** [d[k] = v]: overwrite in place, or append a new entry. *)
Fixpoint dict_set {K V : Type} `{Hashable K} (k : K) (v : V) (d : dict K V)
  : dict K V :=
  match d with
  | [] => [(k, v)]
  | (k', v') :: d' =>
      if key_eqb k k' then (k', v) :: d' else (k', v') :: dict_set k v d'
  end.

(** [{key(x): val(x) for x in xs}] *)
Definition dict_of_list {A K V : Type} `{Hashable K}
  (key : A -> K) (val : A -> V) (xs : list A) : dict K V :=
  fold_left (fun d x => dict_set (key x) (val x) d) xs [].

(** [{k: f(v) for k, v in d.items()}] for a fallible [f]: the keys of [d]
    are kept, in order; the first failing entry aborts the comprehension. *)
Fixpoint dict_map_items {K V W : Type} (f : K -> V -> result W) (d : dict K V)
  : result (dict K W) :=
  match d with
  | [] => Ok []
  | (k, v) :: d' =>
      w <- f k v ;;
      r <- dict_map_items f d' ;;
      Ok ((k, w) :: r)
  end.

(** ** Agent *)

Record Agent : Type := mkAgent {
  name : string;
  capability : Q;
  resource_need : Q;
  selfishness : Q;
  payoff : Q;
  resources_allocated : Q;
  strategy : Q
}.

(** [Agent.__init__] *)
Definition Agent_init (name : string) (capability resource_need selfishness : Q)
  : Agent :=
  mkAgent name capability resource_need selfishness 0 0 1.

Definition set_strategy (self : Agent) (s : Q) : Agent :=
  mkAgent (name self) (capability self) (resource_need self)
          (selfishness self) (payoff self) (resources_allocated self) s.

Definition set_payoff (self : Agent) (p : Q) : Agent :=
  mkAgent (name self) (capability self) (resource_need self)
          (selfishness self) p (resources_allocated self) (strategy self).

Definition set_resources_allocated (self : Agent) (r : Q) : Agent :=
  mkAgent (name self) (capability self) (resource_need self)
          (selfishness self) (payoff self) r (strategy self).

(** [Agent.bid]: reads the agent, assigns nothing. *)
Definition bid (self : Agent) (resource_pool : Q) : Q :=
  let bid := resource_need self * (1 + selfishness self * strategy self) in
  pymin bid resource_pool.

(** [Agent.update_strategy]: the agent after the call. *)
Definition update_strategy (self : Agent) (reward : Q) : Agent :=
  if Qltb 0 reward
  then set_strategy self (strategy self * (11 # 10))
  else set_strategy self (strategy self * (9 # 10)).

(** ** ResourcePool *)

Record ResourcePool : Type := mkPool {
  total_resources : Q;
  remaining_resources : Q
}.

(** [ResourcePool.__init__] *)
Definition ResourcePool_init (total_resources : Q) : ResourcePool :=
  mkPool total_resources total_resources.

Definition replenish (self : ResourcePool) : ResourcePool :=
  mkPool (total_resources self) (total_resources self).

(** [ResourcePool.allocate]: the allocation and the pool after the call. *)
Definition allocate (self : ResourcePool) (bids : dict ref Q)
  : result (dict ref Q * ResourcePool) :=
  let total_bids := pysum (values bids) in
  allocation <-
    (if Qle_bool total_bids (remaining_resources self)
     then Ok bids
     else dict_map_items
            (fun _ bid =>
               q <- truediv bid total_bids ;;
               Ok (q * remaining_resources self))
            bids) ;;
  Ok (allocation,
      mkPool (total_resources self)
             (remaining_resources self - pysum (values allocation))).

(** ** Value attribution *)

Definition compute_shapley_value (contributions : dict ref Q)
  (total_contribution : Q) : result (dict ref Q) :=
  dict_map_items
    (fun _ contribution =>
       if Qltb 0 total_contribution
       then truediv contribution total_contribution
       else Ok 0)
    contributions.

(** ** The game *)

(** The store of agent objects. *)
Definition heap : Type := ref -> Agent.

Definition heap_set (h : heap) (r : ref) (a : Agent) : heap :=
  fun r' => if Nat.eqb r' r then a else h r'.

(** Method calls made by the game loop, recorded in call order. *)
Inductive call : Type :=
| CallReplenish
| CallBid (self : ref) (resource_pool : Q)
| CallAllocate (bids : dict ref Q)
| CallUpdateStrategy (self : ref) (reward : Q).

(** A history: for each agent name, the values appended so far. *)
Definition history : Type := dict string (list Q).

(** [h[n].append(v)] *)
Definition history_append (n : string) (v : Q) (h : history) : result history :=
  l <- dict_get n h ;;
  Ok (dict_set n (l ++ [v]) h).

Record Game : Type := mkGame {
  agents_heap : heap;
  resource_pool : ResourcePool;
  payoff_history : history;
  allocation_history : history;
  calls : list call
}.

(** Line 70: [{agent: agent.bid(remaining) for agent in agents}]. *)
Definition round_bids (agents : list ref) (h : heap) (remaining : Q)
  : dict ref Q :=
  dict_of_list (fun a => a) (fun a => bid (h a) remaining) agents.

(** Lines 73-76: the contribution loop. *)
Definition contribution_step (st : heap * dict ref Q) (item : ref * Q)
  : heap * dict ref Q :=
  let '(h, contributions) := st in
  let '(agent, allocated) := item in
  let h1 :=
    heap_set h agent
      (set_resources_allocated (h agent)
         (resources_allocated (h agent) + allocated)) in
  (h1, dict_set agent (capability (h1 agent) * allocated) contributions).

Definition round_contributions (allocation : dict ref Q) (h : heap)
  : heap * dict ref Q :=
  fold_left contribution_step (allocation : list (ref * Q)) (h, []).

(** Lines 83-84: [agent.payoff += reward; agent.update_strategy(reward)]. *)
Definition pay_reward (h : heap) (agent : ref) (reward : Q) : heap :=
  let h1 := heap_set h agent (set_payoff (h agent) (payoff (h agent) + reward)) in
  heap_set h1 agent (update_strategy (h1 agent) reward).

(** Lines 81-87: the reward loop. *)
Definition reward_step (allocation : dict ref Q) (total : Q)
  (acc : result (heap * history * history * list call)) (item : ref * Q)
  : result (heap * history * history * list call) :=
  '(h, ph, ah, cs) <- acc ;;
  let '(agent, shapley_value) := item in
  let reward := shapley_value * total in
  let h2 := pay_reward h agent reward in
  let cs' := cs ++ [CallUpdateStrategy agent reward] in
  ph' <- history_append (name (h2 agent)) (payoff (h2 agent)) ph ;;
  allocated <- dict_get agent allocation ;;
  ah' <- history_append (name (h2 agent)) allocated ah ;;
  Ok (h2, ph', ah', cs').

Definition round_rewards (shapley_values allocation : dict ref Q) (total : Q)
  (h : heap) (ph ah : history) (cs : list call)
  : result (heap * history * history * list call) :=
  fold_left (reward_step allocation total)
    (shapley_values : list (ref * Q)) (Ok (h, ph, ah, cs)).

(** One iteration of the [for round_no in range(rounds)] loop, with the
    values of its local variables. *)
Record Round : Type := mkRound {
  bids : dict ref Q;
  allocation : dict ref Q;
  contributions : dict ref Q;
  total_contribution : Q;
  shapley_values : dict ref Q;
  after : Game
}.

Definition game_round (agents : list ref) (g : Game) : result Round :=
  let pool1 := replenish (resource_pool g) in
  let cs1 := calls g ++ [CallReplenish] in
  let bids := round_bids agents (agents_heap g) (remaining_resources pool1) in
  let cs2 :=
    cs1 ++ map (fun a => CallBid a (remaining_resources pool1)) agents in
  '(allocation, pool2) <- allocate pool1 bids ;;
  let cs3 := cs2 ++ [CallAllocate bids] in
  let '(h1, contributions) := round_contributions allocation (agents_heap g) in
  let total_contribution := pysum (values contributions) in
  shapley_values <- compute_shapley_value contributions total_contribution ;;
  '(h2, ph, ah, cs4) <-
    round_rewards shapley_values allocation (total_resources pool2) h1
      (payoff_history g) (allocation_history g) cs3 ;;
  Ok (mkRound bids allocation contributions total_contribution shapley_values
        (mkGame h2 pool2 ph ah cs4)).

Fixpoint game_rounds (agents : list ref) (rounds : nat) (g : Game)
  : result Game :=
  match rounds with
  | O => Ok g
  | S rounds' =>
      r <- game_round agents g ;;
      game_rounds agents rounds' (after r)
  end.

(** Lines 61-62: [{agent.name: [] for agent in agents}]. *)
Definition empty_history (agents : list ref) (h : heap) : history :=
  dict_of_list (fun a => name (h a)) (fun _ => []) agents.

(** [resource_allocation_game]: the final state holds the two returned
    histories together with the mutated agents and pool. *)
Definition resource_allocation_game (agents : list ref) (h : heap)
  (pool : ResourcePool) (rounds : nat) : result Game :=
  game_rounds agents rounds
    (mkGame h pool (empty_history agents h) (empty_history agents h) []).

(** The [__main__] block: three agents and a pool of 30. *)
Definition main_agents : list ref := [0%nat; 1%nat; 2%nat].

Definition main_heap : heap :=
  fun r =>
    match r with
    | 0%nat => Agent_init "Agent A" 5 10 (5 # 10)
    | 1%nat => Agent_init "Agent B" 8 8 (3 # 10)
    | _ => Agent_init "Agent C" 4 12 (7 # 10)
    end.

Definition main_pool : ResourcePool := ResourcePool_init 30.

(** ** The same program on binary64 numbers

    Python's [float] is IEEE binary64.  The module below is the program
    again, operation for operation, with every number a binary64 value:
    products and sums round and overflow to infinity, [0 * inf] and
    [inf / inf] are NaN, every comparison with NaN is false, and a
    division raises only on a zero divisor.  It is the model to consult
    where the exact model above idealises; exceptions that Python integers
    outside the binary64 range would cause are outside both models. *)

Module Binary64.
Import PrimFloat.
Local Open Scope float_scope.
#[local] Set Warnings "-inexact-float".

(** [x / y]: a zero divisor of either sign raises. *)
Definition truediv (x y : float) : result float :=
  if PrimFloat.eqb y 0 then Raise ZeroDivisionError else Ok (x / y).

(** [min(x, y)]: the first argument unless the second is strictly smaller. *)
Definition pymin (x y : float) : float := if PrimFloat.ltb y x then y else x.

(** [sum(xs)] *)
Definition pysum (xs : list float) : float := fold_left PrimFloat.add xs 0.

Record Agent : Type := mkAgent {
  name : string;
  capability : float;
  resource_need : float;
  selfishness : float;
  payoff : float;
  resources_allocated : float;
  strategy : float
}.

Definition Agent_init (name : string)
  (capability resource_need selfishness : float) : Agent :=
  mkAgent name capability resource_need selfishness 0 0 1.

Definition set_strategy (self : Agent) (s : float) : Agent :=
  mkAgent (name self) (capability self) (resource_need self)
          (selfishness self) (payoff self) (resources_allocated self) s.

Definition set_payoff (self : Agent) (p : float) : Agent :=
  mkAgent (name self) (capability self) (resource_need self)
          (selfishness self) p (resources_allocated self) (strategy self).

Definition set_resources_allocated (self : Agent) (r : float) : Agent :=
  mkAgent (name self) (capability self) (resource_need self)
          (selfishness self) (payoff self) r (strategy self).

Definition bid (self : Agent) (resource_pool : float) : float :=
  let bid := resource_need self * (1 + selfishness self * strategy self) in
  pymin bid resource_pool.

Definition update_strategy (self : Agent) (reward : float) : Agent :=
  if PrimFloat.ltb 0 reward
  then set_strategy self (strategy self * 1.1)
  else set_strategy self (strategy self * 0.9).

Record ResourcePool : Type := mkPool {
  total_resources : float;
  remaining_resources : float
}.

Definition ResourcePool_init (total_resources : float) : ResourcePool :=
  mkPool total_resources total_resources.

Definition replenish (self : ResourcePool) : ResourcePool :=
  mkPool (total_resources self) (total_resources self).

Definition allocate (self : ResourcePool) (bids : dict ref float)
  : result (dict ref float * ResourcePool) :=
  let total_bids := pysum (values bids) in
  allocation <-
    (if PrimFloat.leb total_bids (remaining_resources self)
     then Ok bids
     else dict_map_items
            (fun _ bid =>
               q <- truediv bid total_bids ;;
               Ok (q * remaining_resources self))
            bids) ;;
  Ok (allocation,
      mkPool (total_resources self)
             (remaining_resources self - pysum (values allocation))).

Definition compute_shapley_value (contributions : dict ref float)
  (total_contribution : float) : result (dict ref float) :=
  dict_map_items
    (fun _ contribution =>
       if PrimFloat.ltb 0 total_contribution
       then truediv contribution total_contribution
       else Ok 0)
    contributions.

Definition heap : Type := ref -> Agent.

Definition heap_set (h : heap) (r : ref) (a : Agent) : heap :=
  fun r' => if Nat.eqb r' r then a else h r'.

Definition history : Type := dict string (list float).

Definition history_append (n : string) (v : float) (h : history)
  : result history :=
  l <- dict_get n h ;;
  Ok (dict_set n (l ++ [v])%list h).

Record Game : Type := mkGame {
  agents_heap : heap;
  resource_pool : ResourcePool;
  payoff_history : history;
  allocation_history : history
}.

Definition round_bids (agents : list ref) (h : heap) (remaining : float)
  : dict ref float :=
  dict_of_list (fun a => a) (fun a => bid (h a) remaining) agents.

Definition contribution_step (st : heap * dict ref float) (item : ref * float)
  : heap * dict ref float :=
  let '(h, contributions) := st in
  let '(agent, allocated) := item in
  let h1 :=
    heap_set h agent
      (set_resources_allocated (h agent)
         (resources_allocated (h agent) + allocated)) in
  (h1, dict_set agent (capability (h1 agent) * allocated) contributions).

Definition round_contributions (allocation : dict ref float) (h : heap)
  : heap * dict ref float :=
  fold_left contribution_step (allocation : list (ref * float)) (h, []).

Definition pay_reward (h : heap) (agent : ref) (reward : float) : heap :=
  let h1 := heap_set h agent (set_payoff (h agent) (payoff (h agent) + reward)) in
  heap_set h1 agent (update_strategy (h1 agent) reward).

Definition reward_step (allocation : dict ref float) (total : float)
  (acc : result (heap * history * history)) (item : ref * float)
  : result (heap * history * history) :=
  '(h, ph, ah) <- acc ;;
  let '(agent, shapley_value) := item in
  let reward := shapley_value * total in
  let h2 := pay_reward h agent reward in
  ph' <- history_append (name (h2 agent)) (payoff (h2 agent)) ph ;;
  allocated <- dict_get agent allocation ;;
  ah' <- history_append (name (h2 agent)) allocated ah ;;
  Ok (h2, ph', ah').

Definition round_rewards (shapley_values allocation : dict ref float)
  (total : float) (h : heap) (ph ah : history)
  : result (heap * history * history) :=
  fold_left (reward_step allocation total)
    (shapley_values : list (ref * float)) (Ok (h, ph, ah)).

Record Round : Type := mkRound {
  bids : dict ref float;
  allocation : dict ref float;
  contributions : dict ref float;
  total_contribution : float;
  shapley_values : dict ref float;
  after : Game
}.

Definition game_round (agents : list ref) (g : Game) : result Round :=
  let pool1 := replenish (resource_pool g) in
  let bids := round_bids agents (agents_heap g) (remaining_resources pool1) in
  '(allocation, pool2) <- allocate pool1 bids ;;
  let '(h1, contributions) := round_contributions allocation (agents_heap g) in
  let total_contribution := pysum (values contributions) in
  shapley_values <- compute_shapley_value contributions total_contribution ;;
  '(h2, ph, ah) <-
    round_rewards shapley_values allocation (total_resources pool2) h1
      (payoff_history g) (allocation_history g) ;;
  Ok (mkRound bids allocation contributions total_contribution shapley_values
        (mkGame h2 pool2 ph ah)).

Fixpoint game_rounds (agents : list ref) (rounds : nat) (g : Game)
  : result Game :=
  match rounds with
  | O => Ok g
  | S rounds' =>
      r <- game_round agents g ;;
      game_rounds agents rounds' (after r)
  end.

Definition empty_history (agents : list ref) (h : heap) : history :=
  dict_of_list (fun a => name (h a)) (fun _ => []) agents.

Definition resource_allocation_game (agents : list ref) (h : heap)
  (pool : ResourcePool) (rounds : nat) : result Game :=
  game_rounds agents rounds
    (mkGame h pool (empty_history agents h) (empty_history agents h)).

End Binary64.

(** ** Specification vocabulary *)

(** The sum of a list, by structural recursion: the reference against
    which Python's accumulating [sum] is measured. *)
Fixpoint Qsum (xs : list Q) : Q :=
  match xs with
  | [] => 0
  | x :: xs' => x + Qsum xs'
  end.

(** The constructor arguments of an agent: the fields no method assigns. *)
Definition same_profile (a b : Agent) : Prop :=
  name a = name b /\ capability a = capability b /\
  resource_need a = resource_need b /\ selfishness a = selfishness b.

(** An agent as [Agent.__init__] builds it from non-negative arguments. *)
Definition constructed (a : Agent) : Prop :=
  exists n c r s,
    a = Agent_init n c r s /\ 0 <= c /\ 0 <= r /\ 0 <= s.

(** An agent with non-negative parameters and a positive strategy. *)
Definition agent_ok (a : Agent) : Prop :=
  0 <= capability a /\ 0 <= resource_need a /\ 0 <= selfishness a /\
  0 < strategy a.

(** Both histories hold a sequence for the name of every listed agent. *)
Definition history_ready (agents : list ref) (g : Game) : Prop :=
  forall a, In a agents ->
    In (name (agents_heap g a)) (keys (payoff_history g)) /\
    In (name (agents_heap g a)) (keys (allocation_history g)).

(** Distinct listed agents bear distinct names. *)
Definition unique_names (agents : list ref) (h : heap) : Prop :=
  forall a b, In a agents -> In b agents ->
    name (h a) = name (h b) -> a = b.

(** The payoffs of the listed agents, each agent counted once. *)
Definition aggregate_payoff (agents : list ref) (h : heap) : Q :=
  Qsum (map (fun a => payoff (h a)) (nodup Nat.eq_dec agents)).

(** The rewards handed out in a round, in the order of the reward loop. *)
Definition rewards (r : Round) (total : Q) : list Q :=
  map (fun kv => snd kv * total) (shapley_values r).

(** What one pass of the reward loop must preserve for a property [P] of
    the entries already rewarded and the state reached. *)
Definition reward_step_preserves (allocation : dict ref Q) (total : Q)
  (l : list (ref * Q)) (h0 : heap)
  (P : list (ref * Q) -> heap -> history -> history -> list call -> Prop)
  : Prop :=
  forall done a sv rest h ph ah cs lp la x,
    l = done ++ (a, sv) :: rest ->
    (forall r, same_profile (h r) (h0 r)) ->
    dict_get (name (h0 a)) ph = Ok lp ->
    dict_get (name (h0 a)) ah = Ok la ->
    dict_get a allocation = Ok x ->
    P done h ph ah cs ->
    P (done ++ [(a, sv)]) (pay_reward h a (sv * total))
      (dict_set (name (h0 a)) (lp ++ [payoff (h a) + sv * total]) ph)
      (dict_set (name (h0 a)) (la ++ [x]) ah)
      (cs ++ [CallUpdateStrategy a (sv * total)]).

(** The state of the reward loop once the entries [done] are rewarded,
    starting from store [h1] and histories [ph0], [ah0]: rewarded agents
    have been paid once, the others are untouched, and, when names are
    unique, each rewarded agent's sequences have grown by one value. *)
Definition reward_loop_inv (agents : list ref) (allocation : dict ref Q)
  (total : Q) (h1 : heap) (ph0 ah0 : history)
  (done : list (ref * Q)) (h : heap) (ph ah : history) (cs : list call)
  : Prop :=
  (forall a sv, In (a, sv) done ->
     payoff (h a) = payoff (h1 a) + sv * total) /\
  (forall a, ~ In a (keys done) -> h a = h1 a) /\
  (forall a, 0 < strategy (h1 a) -> 0 < strategy (h a)) /\
  (unique_names agents h1 ->
   forall a lp la, In a agents ->
     dict_get (name (h1 a)) ph0 = Ok lp ->
     dict_get (name (h1 a)) ah0 = Ok la ->
     (In a (keys done) ->
        exists x, dict_get a allocation = Ok x /\
          dict_get (name (h1 a)) ph = Ok (lp ++ [payoff (h a)]) /\
          dict_get (name (h1 a)) ah = Ok (la ++ [x])) /\
     (~ In a (keys done) ->
        dict_get (name (h1 a)) ph = Ok lp /\
        dict_get (name (h1 a)) ah = Ok la)).

(** What a round [r] run from the game state [g] computes and leaves. *)
Definition round_sound (agents : list ref) (g : Game) (r : Round) : Prop :=
  let total := total_resources (resource_pool g) in
  let h := agents_heap g in
  let h' := agents_heap (after r) in
  bids r = round_bids agents h total /\
  allocate (replenish (resource_pool g)) (bids r)
  = Ok (allocation r, resource_pool (after r)) /\
  total_resources (resource_pool (after r)) = total /\
  (allocation r = bids r \/
   total < pysum (values (bids r)) /\
   allocation r
   = map (fun kv => (fst kv, snd kv / pysum (values (bids r)) * total))
         (bids r)) /\
  contributions r = snd (round_contributions (allocation r) h) /\
  total_contribution r = pysum (values (contributions r)) /\
  compute_shapley_value (contributions r) (total_contribution r)
  = Ok (shapley_values r) /\
  NoDup (keys (shapley_values r)) /\
  (forall a, In a (keys (shapley_values r)) <-> In a agents) /\
  (forall a sv, In (a, sv) (shapley_values r) ->
     payoff (h' a) = payoff (h a) + sv * total) /\
  (forall a, ~ In a agents -> payoff (h' a) = payoff (h a)) /\
  (forall a, same_profile (h' a) (h a)) /\
  (forall a, 0 < strategy (h a) -> 0 < strategy (h' a)) /\
  history_ready agents (after r) /\
  keys (payoff_history (after r)) = keys (payoff_history g) /\
  keys (allocation_history (after r)) = keys (allocation_history g) /\
  (unique_names agents h ->
   forall a lp la, In a agents ->
     dict_get (name (h a)) (payoff_history g) = Ok lp ->
     dict_get (name (h a)) (allocation_history g) = Ok la ->
     exists x, dict_get a (allocation r) = Ok x /\
       dict_get (name (h a)) (payoff_history (after r))
       = Ok (lp ++ [payoff (h' a)]) /\
       dict_get (name (h a)) (allocation_history (after r))
       = Ok (la ++ [x])).

(** [q] multiplied by itself [n] times. *)
Fixpoint Qpow (q : Q) (n : nat) : Q :=
  match n with
  | O => 1
  | S n' => q * Qpow q n'
  end.

(** How many rewards of a sequence are positive. *)
Definition positive_rewards (rewards : list Q) : nat :=
  List.length (filter (Qltb 0) rewards).

(** The agent [a] after a round that allocated it [x] and paid it
    [reward]: lines 75, 83 and 84 in turn. *)
Definition after_round (a : Agent) (x reward : Q) : Agent :=
  update_strategy
    (set_payoff
       (set_resources_allocated a (resources_allocated a + x))
       (payoff a + reward))
    reward.

(** The store and the call log of the reward loop once the entries [done]
    are rewarded, record by record and call by call. *)
Definition reward_loop_exact (total : Q) (h1 : heap) (cs0 : list call)
  (done : list (ref * Q)) (h : heap) (ph ah : history) (cs : list call)
  : Prop :=
  (forall a sv, In (a, sv) done ->
     h a = update_strategy
             (set_payoff (h1 a) (payoff (h1 a) + sv * total)) (sv * total)) /\
  (forall a, ~ In a (keys done) -> h a = h1 a) /\
  cs = cs0 ++ map (fun kv => CallUpdateStrategy (fst kv) (snd kv * total)) done.

(** The calls one round makes, in order. *)
Definition round_calls (agents : list ref) (r : Round) (total : Q)
  : list call :=
  [CallReplenish]
    ++ map (fun a => CallBid a total) agents
    ++ [CallAllocate (bids r)]
    ++ map (fun kv => CallUpdateStrategy (fst kv) (snd kv * total))
         (shapley_values r).

(** Line 98 of [visualize_results]:
    [rounds = len(next(iter(payoff_history.values())))].  [None] stands
    for the [StopIteration] that [next] raises on a history without
    entries. *)
Definition plotted_rounds (payoff_history : history) : option nat :=
  match values payoff_history with
  | [] => None
  | payoffs :: _ => Some (List.length payoffs)
  end.

(** The rounds the loop of [resource_allocation_game] runs, in order. *)
Fixpoint game_trace (agents : list ref) (rounds : nat) (g : Game)
  : result (list Round) :=
  match rounds with
  | O => Ok []
  | S rounds' =>
      r <- game_round agents g ;;
      rs <- game_trace agents rounds' (after r) ;;
      Ok (r :: rs)
  end.

(** Whether round [r] paid agent [a] a positive reward: the test of
    [update_strategy] on [shapley_values[a] * total]. *)
Definition paid_positive (total : Q) (a : ref) (r : Round) : bool :=
  match dict_get a (shapley_values r) with
  | Ok shapley_value => Qltb 0 (shapley_value * total)
  | Raise _ => false
  end.

(** Whether the total contribution of round [r] was positive: the guard
    of [compute_shapley_value]. *)
Definition productive (r : Round) : bool := Qltb 0 (total_contribution r).

(** * Properties *)

(** ** Arithmetic and summation lemmas *)

Lemma Qltb_lt (x y : Q) : Qltb x y = true <-> x < y.
Proof.
  unfold Qltb. rewrite negb_true_iff. split.
  - intros E. apply Qnot_le_lt. intros L.
    apply Qle_bool_iff in L. congruence.
  - intros L. destruct (Qle_bool y x) eqn:E; [|reflexivity].
    apply Qle_bool_iff in E. exfalso. exact (Qlt_not_le _ _ L E).
Qed.

Lemma Qltb_ge (x y : Q) : Qltb x y = false <-> y <= x.
Proof.
  unfold Qltb. rewrite negb_false_iff. apply Qle_bool_iff.
Qed.

Lemma Qle_bool_gt (x y : Q) : Qle_bool x y = false <-> y < x.
Proof.
  rewrite <- Qltb_lt. unfold Qltb. now rewrite negb_true_iff.
Qed.

Lemma truediv_ok (x y : Q) : ~ y == 0 -> truediv x y = Ok (x / y).
Proof.
  intros N. unfold truediv. destruct (Qeq_bool y 0) eqn:E; [|reflexivity].
  apply Qeq_bool_iff in E. contradiction.
Qed.

Lemma pymin_Qmin (x y : Q) : pymin x y = Qmin x y.
Proof.
  unfold pymin, Qmin, GenericMinMax.gmin.
  destruct (Qltb y x) eqn:E.
  - apply Qltb_lt in E. apply Qgt_alt in E. now rewrite E.
  - apply Qltb_ge in E.
    destruct (x ?= y) eqn:C; try reflexivity.
    apply Qgt_alt in C. exfalso. exact (Qlt_not_le _ _ C E).
Qed.

Lemma pymin_le_r (x y : Q) : pymin x y <= y.
Proof. rewrite pymin_Qmin. apply Q.le_min_r. Qed.

Lemma pymin_glb (x y z : Q) : z <= x -> z <= y -> z <= pymin x y.
Proof. rewrite pymin_Qmin. apply Q.min_glb. Qed.

Lemma fold_left_Qplus (xs : list Q) (a : Q) :
  fold_left Qplus xs a == a + Qsum xs.
Proof.
  revert a. induction xs as [|x xs IH]; intros a; simpl.
  - ring.
  - rewrite IH. ring.
Qed.

Lemma pysum_Qsum (xs : list Q) : pysum xs == Qsum xs.
Proof. unfold pysum. rewrite fold_left_Qplus. ring. Qed.

Lemma Qsum_nonneg (xs : list Q) :
  (forall x, In x xs -> 0 <= x) -> 0 <= Qsum xs.
Proof.
  induction xs as [|x xs IH]; intros H; simpl.
  - apply Qle_refl.
  - assert (0 <= x) by (apply H; now left).
    assert (0 <= Qsum xs) by (apply IH; intros; apply H; now right).
    lra.
Qed.

Lemma Qsum_member_le (xs : list Q) (x : Q) :
  (forall y, In y xs -> 0 <= y) -> In x xs -> x <= Qsum xs.
Proof.
  induction xs as [|y xs IH]; intros H I; simpl; [contradiction|].
  assert (0 <= y) by (apply H; now left).
  assert (0 <= Qsum xs) by (apply Qsum_nonneg; intros; apply H; now right).
  destruct I as [->|I].
  - lra.
  - assert (x <= Qsum xs) by (apply IH; [intros; apply H; now right|exact I]).
    lra.
Qed.

Lemma Qsum_all_zero (xs : list Q) :
  (forall x, In x xs -> x == 0) -> Qsum xs == 0.
Proof.
  induction xs as [|x xs IH]; intros H; simpl.
  - reflexivity.
  - rewrite (H x) by now left. rewrite IH; [ring|].
    intros; apply H; now right.
Qed.

Lemma Qsum_map_scale (f : Q -> Q) (c : Q) (xs : list Q) :
  (forall x, f x == x * c) -> Qsum (map f xs) == Qsum xs * c.
Proof.
  intros F. induction xs as [|x xs IH]; simpl.
  - ring.
  - rewrite IH, F. ring.
Qed.

(** ** Dictionary lemmas *)

Lemma values_In {K V : Type} (d : dict K V) (v : V) :
  In v (values d) <-> exists k, In (k, v) d.
Proof.
  unfold values. rewrite in_map_iff. split.
  - intros [[k w] [E I]]. simpl in E. subst. now exists k.
  - intros [k I]. now exists (k, v).
Qed.

Lemma dict_map_values_total {K V W : Type}
  (f : V -> result W) (g : V -> W) (d : dict K V) :
  (forall v, In v (values d) -> f v = Ok (g v)) ->
  dict_map_items (fun _ => f) d = Ok (map (fun kv => (fst kv, g (snd kv))) d).
Proof.
  induction d as [|[k v] d IH]; intros H; simpl.
  - reflexivity.
  - rewrite (H v) by (simpl; now left). simpl.
    rewrite IH by (intros; apply H; simpl; now right). reflexivity.
Qed.

Lemma values_map_values {K V W : Type} (g : V -> W) (d : dict K V) :
  values (map (fun kv => (fst kv, g (snd kv))) d) = map g (values d).
Proof.
  unfold values. rewrite !map_map. reflexivity.
Qed.

Lemma keys_map_values {K V W : Type} (g : V -> W) (d : dict K V) :
  keys (map (fun kv => (fst kv, g (snd kv))) d) = keys d.
Proof.
  unfold keys. rewrite map_map. reflexivity.
Qed.

(** ** ResourcePool.allocate *)

(** The rationing rule applied to one bid. *)
Lemma ration_ok (total_bids remaining b : Q) :
  ~ total_bids == 0 ->
  (q <- truediv b total_bids ;; Ok (q * remaining))
  = Ok (b / total_bids * remaining).
Proof.
  intros P. now rewrite truediv_ok.
Qed.

Lemma rationed_sum (total_bids remaining : Q) (xs : list Q) :
  ~ total_bids == 0 -> Qsum xs == total_bids ->
  Qsum (map (fun b => b / total_bids * remaining) xs) == remaining.
Proof.
  intros P E.
  rewrite (Qsum_map_scale _ (remaining / total_bids)).
  - rewrite E. now field.
  - intros x. now field.
Qed.

(** The shortfall branch of [allocate], for a non-zero sum of bids. *)
Lemma allocate_shortfall (self : ResourcePool) (bids : dict ref Q) :
  remaining_resources self < pysum (values bids) ->
  ~ pysum (values bids) == 0 ->
  let allocation :=
    map (fun kv =>
           (fst kv, snd kv / pysum (values bids) * remaining_resources self))
        bids in
  allocate self bids
  = Ok (allocation,
        mkPool (total_resources self)
               (remaining_resources self - pysum (values allocation))) /\
  pysum (values allocation) == remaining_resources self.
Proof.
  intros L P allocation. unfold allocate.
  apply Qle_bool_gt in L. rewrite L.
  rewrite (dict_map_values_total _
             (fun b => b / pysum (values bids) * remaining_resources self))
    by (intros; now apply ration_ok).
  split; [reflexivity|].
  unfold allocation.
  rewrite (values_map_values
             (fun b => b / pysum (values bids) * remaining_resources self)).
  rewrite pysum_Qsum.
  apply rationed_sum; [exact P|]. symmetry. apply pysum_Qsum.
Qed.

(** The other branch: demand within supply. *)
Lemma allocate_enough (self : ResourcePool) (bids : dict ref Q) :
  pysum (values bids) <= remaining_resources self ->
  allocate self bids
  = Ok (bids,
        mkPool (total_resources self)
               (remaining_resources self - pysum (values bids))).
Proof.
  intros L. unfold allocate. apply Qle_bool_iff in L. now rewrite L.
Qed.

(** C1, as amended: for every bid map with non-negative values and every
    pool whose remaining resources are non-negative, [allocate] returns
    the bid map itself when the sum of the bids is at most the remaining
    resources, and otherwise gives each agent
    [(bid / total_bids) * remaining_resources], an allocation whose values
    sum to the remaining resources seen at entry.  Either way the
    allocated amounts are non-negative and sum to at most the remaining
    resources. *)
Theorem allocate_piecewise (self : ResourcePool) (bids : dict ref Q) :
  (forall a b, In (a, b) bids -> 0 <= b) ->
  0 <= remaining_resources self ->
  let total_bids := pysum (values bids) in
  let remaining := remaining_resources self in
  exists allocation pool',
    allocate self bids = Ok (allocation, pool') /\
    (total_bids <= remaining -> allocation = bids) /\
    (remaining < total_bids ->
       allocation
       = map (fun kv => (fst kv, snd kv / total_bids * remaining)) bids /\
       pysum (values allocation) == remaining) /\
    (forall a x, In (a, x) allocation -> 0 <= x) /\
    pysum (values allocation) <= remaining.
Proof.
  intros N R total_bids remaining.
  destruct (Qlt_le_dec remaining total_bids) as [L|L].
  - assert (P : 0 < total_bids) by (unfold remaining in L; lra).
    assert (NZ : ~ total_bids == 0) by lra.
    destruct (allocate_shortfall self bids L NZ) as [E S].
    eexists _, _. split; [exact E|]. split; [|split; [|split]].
    + intros L'. exfalso. exact (Qlt_not_le _ _ L L').
    + intros _. split; [reflexivity|exact S].
    + intros a x I. apply in_map_iff in I.
      destruct I as ([a' b] & Eq & I). simpl in Eq. inversion Eq; subst.
      apply Qmult_le_0_compat; [|exact R].
      apply Qle_shift_div_l; [exact P|]. rewrite Qmult_0_l. eapply N, I.
    + rewrite S. apply Qle_refl.
  - eexists _, _. split; [exact (allocate_enough self bids L)|].
    split; [|split; [|split]].
    + reflexivity.
    + intros L'. exfalso. exact (Qlt_not_le _ _ L' L).
    + exact N.
    + exact L.
Qed.

Lemma allocate_piecewise_witness :
  exists allocation pool',
    allocate (mkPool 30 30) [(0%nat, 15); (1%nat, 104 # 10); (2%nat, 204 # 10)]
    = Ok (allocation, pool') /\
    pysum (values allocation) == 30.
Proof.
  destruct (allocate_piecewise (mkPool 30 30)
              [(0%nat, 15); (1%nat, 104 # 10); (2%nat, 204 # 10)])
    as (allocation & pool' & E & _ & S & _).
  - simpl. intros a b [H|[H|[H|[]]]]; inversion H; subst; discriminate.
  - simpl. discriminate.
  - exists allocation, pool'. split; [exact E|].
    apply S. reflexivity.
Defined.

(** C1, as first stated, fails: with remaining resources below zero a
    single zero bid has a sum above the supply, the shortfall branch
    divides by that sum and the call raises instead of returning. *)
Lemma allocate_piecewise_counterexample :
  let self := mkPool 1 (-1) in
  let bids : dict ref Q := [(0%nat, 0)] in
  (forall a b, In (a, b) bids -> 0 <= b) /\
  ~ pysum (values bids) <= remaining_resources self /\
  allocate self bids = Raise ZeroDivisionError /\
  ~ exists allocation pool', allocate self bids = Ok (allocation, pool').
Proof.
  simpl. repeat split.
  - intros a b [H|[]]. inversion H. apply Qle_refl.
  - intros L. vm_compute in L. apply L. reflexivity.
  - intros (allocation & pool' & E). discriminate E.
Qed.

(** C2: when every bid is zero and the remaining resources are
    non-negative, [allocate] returns the bid map, all of whose values are
    zero, through the branch that does not divide; no exception is
    raised and the remaining resources keep their value. *)
Theorem allocate_zero_bids (self : ResourcePool) (bids : dict ref Q) :
  (forall a b, In (a, b) bids -> b == 0) ->
  0 <= remaining_resources self ->
  exists pool',
    allocate self bids = Ok (bids, pool') /\
    Qle_bool (pysum (values bids)) (remaining_resources self) = true /\
    (forall a x, In (a, x) bids -> x == 0) /\
    remaining_resources pool' == remaining_resources self.
Proof.
  intros Z R.
  assert (S : pysum (values bids) == 0).
  { rewrite pysum_Qsum. apply Qsum_all_zero.
    intros x I. apply values_In in I. destruct I as [k I]. eapply Z, I. }
  assert (L : pysum (values bids) <= remaining_resources self) by lra.
  eexists. split; [exact (allocate_enough self bids L)|].
  split; [now apply Qle_bool_iff|]. split; [exact Z|].
  simpl. lra.
Qed.

Lemma allocate_zero_bids_witness :
  exists pool',
    allocate (mkPool 30 30) [(0%nat, 0); (1%nat, 0)]
    = Ok ([(0%nat, 0); (1%nat, 0)], pool').
Proof.
  destruct (allocate_zero_bids (mkPool 30 30) [(0%nat, 0); (1%nat, 0)])
    as (pool' & E & _).
  - simpl. intros a b [H|[H|[]]]; inversion H; reflexivity.
  - simpl. discriminate.
  - exists pool'. exact E.
Defined.

(** C3: [allocate] lowers the remaining resources by exactly the sum of
    the allocation it returns and leaves the total alone; and for a pool
    with positive total resources, [replenish] followed by [allocate] on
    non-negative bids returns and leaves
    [0 <= remaining_resources <= total_resources], whatever the pool held
    before. *)
Theorem allocate_decrements_within_bounds
  (self : ResourcePool) (bids : dict ref Q) :
  0 < total_resources self ->
  (forall a b, In (a, b) bids -> 0 <= b) ->
  (forall pool bs allocation pool',
     allocate pool bs = Ok (allocation, pool') ->
     remaining_resources pool'
     = remaining_resources pool - pysum (values allocation) /\
     total_resources pool' = total_resources pool) /\
  exists allocation pool',
    allocate (replenish self) bids = Ok (allocation, pool') /\
    total_resources pool' = total_resources self /\
    0 <= remaining_resources pool' /\
    remaining_resources pool' <= total_resources pool'.
Proof.
  intros T N. split.
  - intros pool bs allocation pool' E. unfold allocate in E.
    destruct (Qle_bool _ _).
    + simpl in E. inversion E; subst. now split.
    + destruct (dict_map_items _ bs) as [d|e]; simpl in E; [|discriminate].
      inversion E; subst. now split.
  - assert (S : 0 <= pysum (values bids)).
    { rewrite pysum_Qsum. apply Qsum_nonneg. intros x I.
      apply values_In in I. destruct I as [k I]. eapply N, I. }
    destruct (Qlt_le_dec (remaining_resources (replenish self))
                (pysum (values bids))) as [L|L].
    + assert (P : ~ pysum (values bids) == 0) by (simpl in L; lra).
      destruct (allocate_shortfall (replenish self) bids L P) as [E Sm].
      eexists _, _. split; [exact E|]. simpl in *.
      split; [reflexivity|]. split; lra.
    + eexists _, _. split; [exact (allocate_enough _ bids L)|].
      simpl in *. split; [reflexivity|]. split; lra.
Qed.

Lemma allocate_decrements_within_bounds_witness :
  exists allocation pool',
    allocate (replenish (mkPool 30 7)) [(0%nat, 15); (1%nat, 20)]
    = Ok (allocation, pool') /\
    0 <= remaining_resources pool' /\
    remaining_resources pool' <= 30.
Proof.
  destruct (allocate_decrements_within_bounds (mkPool 30 7)
              [(0%nat, 15); (1%nat, 20)])
    as (_ & allocation & pool' & E & T & L & U).
  - reflexivity.
  - simpl. intros a b [H|[H|[]]]; inversion H; subst; discriminate.
  - exists allocation, pool'. rewrite T in U. now repeat split.
Defined.

(** ** compute_shapley_value *)

Lemma share_ok (total c : Q) :
  0 < total ->
  (if Qltb 0 total then truediv c total else Ok 0) = Ok (c / total).
Proof.
  intros P. apply Qltb_lt in P as B. rewrite B.
  apply truediv_ok. intros Z. lra.
Qed.

Lemma share_zero (total c : Q) :
  ~ 0 < total ->
  (if Qltb 0 total then truediv c total else Ok 0) = Ok 0.
Proof.
  intros N. destruct (Qltb 0 total) eqn:B; [|reflexivity].
  apply Qltb_lt in B. contradiction.
Qed.

Lemma compute_shapley_value_positive (contributions : dict ref Q) (total : Q) :
  0 < total ->
  compute_shapley_value contributions total
  = Ok (map (fun kv => (fst kv, snd kv / total)) contributions).
Proof.
  intros P. unfold compute_shapley_value.
  apply (dict_map_values_total _ (fun c => c / total)).
  intros; now apply share_ok.
Qed.

Lemma compute_shapley_value_guarded (contributions : dict ref Q) (total : Q) :
  ~ 0 < total ->
  compute_shapley_value contributions total
  = Ok (map (fun kv => (fst kv, 0)) contributions).
Proof.
  intros N. unfold compute_shapley_value.
  apply (dict_map_values_total _ (fun _ => 0)).
  intros; now apply share_zero.
Qed.

Lemma shares_sum_one (total : Q) (xs : list Q) :
  0 < total -> Qsum xs == total ->
  Qsum (map (fun c => c / total) xs) == 1.
Proof.
  intros P E. rewrite (Qsum_map_scale _ (/ total)).
  - rewrite E. field. lra.
  - intros x. reflexivity.
Qed.

(** C4: for non-negative contributions whose sum is [total_contribution],
    [compute_shapley_value] returns, without raising, the share
    [contribution / total_contribution] of every agent when the total is
    positive and [0] for every agent otherwise; every share lies in
    [[0, 1]], the shares sum to [1] when the total is positive and all are
    zero when it is zero. *)
Theorem compute_shapley_value_shares
  (contributions : dict ref Q) (total_contribution : Q) :
  (forall a c, In (a, c) contributions -> 0 <= c) ->
  total_contribution == pysum (values contributions) ->
  exists shares,
    compute_shapley_value contributions total_contribution = Ok shares /\
    (0 < total_contribution ->
       shares
       = map (fun kv => (fst kv, snd kv / total_contribution)) contributions /\
       pysum (values shares) == 1) /\
    (~ 0 < total_contribution ->
       shares = map (fun kv => (fst kv, 0)) contributions) /\
    (total_contribution == 0 -> forall a s, In (a, s) shares -> s = 0) /\
    (forall a s, In (a, s) shares -> 0 <= s /\ s <= 1).
Proof.
  intros N E. rewrite pysum_Qsum in E.
  destruct (Qlt_le_dec 0 total_contribution) as [P|Z].
  - eexists. split; [exact (compute_shapley_value_positive _ _ P)|].
    split; [|split; [|split]].
    + intros _. split; [reflexivity|].
      rewrite (values_map_values (fun c => c / total_contribution)).
      rewrite pysum_Qsum. apply shares_sum_one; [exact P|now symmetry].
    + intros NP. contradiction.
    + intros Z. lra.
    + intros a s I. apply in_map_iff in I.
      destruct I as [[a' c] [Eq I]]. simpl in Eq. inversion Eq; subst.
      assert (0 <= c) by (eapply N, I).
      assert (c <= Qsum (values contributions)).
      { apply Qsum_member_le.
        - intros y Iy. apply values_In in Iy. destruct Iy as [k Iy].
          eapply N, Iy.
        - apply values_In. now exists a. }
      split.
      * apply Qle_shift_div_l; [exact P|]. lra.
      * apply Qle_shift_div_r; [exact P|]. lra.
  - assert (NP : ~ 0 < total_contribution) by (intros P; lra).
    eexists. split; [exact (compute_shapley_value_guarded _ _ NP)|].
    split; [|split; [|split]].
    + intros P. contradiction.
    + intros _. reflexivity.
    + intros _ a s I. apply in_map_iff in I.
      destruct I as [[a' c] [Eq I]]. simpl in Eq. now inversion Eq.
    + intros a s I. apply in_map_iff in I.
      destruct I as [[a' c] [Eq I]]. simpl in Eq. inversion Eq; subst.
      split; lra.
Qed.

Lemma compute_shapley_value_shares_witness :
  exists shares,
    compute_shapley_value [(0%nat, 1); (1%nat, 3)] 4 = Ok shares /\
    pysum (values shares) == 1.
Proof.
  destruct (compute_shapley_value_shares [(0%nat, 1); (1%nat, 3)] 4)
    as (shares & E & P & _).
  - simpl. intros a c [H|[H|[]]]; inversion H; subst; discriminate.
  - reflexivity.
  - exists shares. split; [exact E|]. apply P. reflexivity.
Defined.

(** ** Agent.update_strategy and Agent.bid *)

Lemma update_strategy_positive_reward (self : Agent) (reward : Q) :
  0 < reward ->
  update_strategy self reward = set_strategy self (strategy self * (11 # 10)).
Proof.
  intros P. unfold update_strategy. apply Qltb_lt in P. now rewrite P.
Qed.

Lemma update_strategy_other_reward (self : Agent) (reward : Q) :
  reward <= 0 ->
  update_strategy self reward = set_strategy self (strategy self * (9 # 10)).
Proof.
  intros P. unfold update_strategy. apply Qltb_ge in P. now rewrite P.
Qed.

(** C5: [update_strategy] multiplies the strategy by 11/10 when the reward
    is positive and by 9/10 when it is zero or negative; every other
    field of the agent keeps its value, and the call yields nothing but
    the updated agent. *)
Theorem update_strategy_scales (self : Agent) (reward : Q) :
  (0 < reward ->
     strategy (update_strategy self reward) = strategy self * (11 # 10)) /\
  (reward <= 0 ->
     strategy (update_strategy self reward) = strategy self * (9 # 10)) /\
  strategy (update_strategy self 0) = strategy self * (9 # 10) /\
  name (update_strategy self reward) = name self /\
  capability (update_strategy self reward) = capability self /\
  resource_need (update_strategy self reward) = resource_need self /\
  selfishness (update_strategy self reward) = selfishness self /\
  payoff (update_strategy self reward) = payoff self /\
  resources_allocated (update_strategy self reward) = resources_allocated self.
Proof.
  split; [|split; [|split]].
  - intros P. now rewrite update_strategy_positive_reward.
  - intros P. now rewrite update_strategy_other_reward.
  - reflexivity.
  - unfold update_strategy. destruct (Qltb 0 reward); repeat split.
Qed.

Lemma demand_nonneg (self : Agent) :
  0 <= resource_need self -> 0 <= selfishness self -> 0 <= strategy self ->
  0 <= resource_need self * (1 + selfishness self * strategy self).
Proof.
  intros N S T. apply Qmult_le_0_compat; [exact N|].
  assert (0 <= selfishness self * strategy self)
    by now apply Qmult_le_0_compat.
  lra.
Qed.

(** C6, as amended: in exact arithmetic, for an agent with non-negative
    need, selfishness and strategy and
    a non-negative amount of remaining resources, [bid] is the smaller of
    [resource_need * (1 + selfishness * strategy)] and the remaining
    amount; it is non-negative and at most the remaining amount.  [bid]
    only reads the agent: it is a function of the agent's fields whose
    sole output is the bid. *)
Theorem bid_clamped (self : Agent) (remaining : Q) :
  0 <= resource_need self ->
  0 <= selfishness self ->
  0 <= strategy self ->
  0 <= remaining ->
  bid self remaining
  = Qmin (resource_need self * (1 + selfishness self * strategy self))
         remaining /\
  0 <= bid self remaining /\
  bid self remaining <= remaining.
Proof.
  intros N S T R. unfold bid. split; [apply pymin_Qmin|]. split.
  - apply pymin_glb; [now apply demand_nonneg|exact R].
  - apply pymin_le_r.
Qed.

Lemma bid_clamped_witness :
  bid (Agent_init "Agent C" 4 12 (7 # 10)) 30
  = Qmin (12 * (1 + (7 # 10) * 1)) 30 /\
  bid (Agent_init "Agent C" 4 12 (7 # 10)) 30 <= 30.
Proof.
  destruct (bid_clamped (Agent_init "Agent C" 4 12 (7 # 10)) 30)
    as (E & _ & U); simpl; try discriminate.
  split; [exact E|exact U].
Defined.

Section Binary64Bid.
Import PrimFloat.
#[local] Set Warnings "-inexact-float".

(** C6, as first stated, fails on binary64 numbers: an agent built with
    need 0 and selfishness 1e308 has, after eight positive rewards, a
    strategy above 2.14; [selfishness * strategy] overflows to infinity,
    [0 * inf] is NaN and [min(nan, 30)] is NaN, a bid that is neither
    non-negative nor at most the resources on offer. *)
Lemma bid_clamped_counterexample :
  let self :=
    fold_left Binary64.update_strategy (repeat 1%float 8)
      (Binary64.Agent_init "A" 1%float 0%float 1e308%float) in
  PrimFloat.leb 0 (Binary64.resource_need self) = true /\
  PrimFloat.leb 0 (Binary64.selfishness self) = true /\
  PrimFloat.leb 0 (Binary64.strategy self) = true /\
  PrimFloat.leb 0 30 = true /\
  PrimFloat.is_nan (Binary64.bid self 30%float) = true /\
  PrimFloat.leb 0 (Binary64.bid self 30%float) = false /\
  PrimFloat.leb (Binary64.bid self 30%float) 30 = false.
Proof.
  repeat split; vm_compute; reflexivity.
Qed.

End Binary64Bid.

Lemma update_strategy_keeps_sign (self : Agent) (reward : Q) :
  0 < strategy self -> 0 < strategy (update_strategy self reward).
Proof.
  intros P. unfold update_strategy.
  destruct (Qltb 0 reward); simpl; lra.
Qed.

Lemma update_sequence_positive (rewards : list Q) (self : Agent) :
  0 < strategy self ->
  0 < strategy (fold_left update_strategy rewards self).
Proof.
  revert self. induction rewards as [|r rewards IH]; intros self P; simpl.
  - exact P.
  - apply IH. now apply update_strategy_keeps_sign.
Qed.

(** ** Dictionaries built by assignment *)

Section DictFacts.
Context {K V : Type} `{Hashable K}.

Lemma key_eqb_refl (k : K) : key_eqb k k = true.
Proof. destruct (key_eqb_spec k k); congruence. Qed.

Lemma key_eqb_neq (k k' : K) : k <> k' -> key_eqb k k' = false.
Proof. intros N. destruct (key_eqb_spec k k'); congruence. Qed.

Lemma dict_get_set_same (k : K) (v : V) (d : dict K V) :
  dict_get k (dict_set k v d) = Ok v.
Proof.
  induction d as [|[k' v'] d IH]; simpl.
  - now rewrite key_eqb_refl.
  - destruct (key_eqb_spec k k') as [->|N]; simpl.
    + now rewrite key_eqb_refl.
    + now rewrite (key_eqb_neq _ _ N).
Qed.

Lemma dict_get_set_other (k k0 : K) (v : V) (d : dict K V) :
  k <> k0 -> dict_get k (dict_set k0 v d) = dict_get k d.
Proof.
  intros N. induction d as [|[k' v'] d IH]; simpl.
  - now rewrite (key_eqb_neq _ _ N).
  - destruct (key_eqb_spec k0 k') as [->|N']; simpl.
    + now rewrite (key_eqb_neq _ _ N).
    + now rewrite IH.
Qed.

Lemma dict_get_In (k : K) (d : dict K V) :
  In k (keys d) <-> exists v, dict_get k d = Ok v.
Proof.
  induction d as [|[k' v'] d IH]; simpl.
  - split; [contradiction|]. intros [v E]. discriminate.
  - destruct (key_eqb_spec k k') as [->|N].
    + split; [now exists v'|now left].
    + rewrite <- IH. split; [|now right].
      intros [E|I]; [congruence|exact I].
Qed.

Lemma dict_set_present (k : K) (v : V) (d : dict K V) :
  In k (keys d) -> keys (dict_set k v d) = keys d.
Proof.
  induction d as [|[k' v'] d IH]; simpl; [contradiction|].
  intros I. destruct (key_eqb_spec k k') as [->|N]; simpl.
  - reflexivity.
  - f_equal. apply IH. destruct I as [E|I]; [congruence|exact I].
Qed.

Lemma dict_set_absent (k : K) (v : V) (d : dict K V) :
  ~ In k (keys d) -> dict_set k v d = d ++ [(k, v)].
Proof.
  induction d as [|[k' v'] d IH]; simpl; [reflexivity|].
  intros N. destruct (key_eqb_spec k k') as [->|N'].
  - exfalso. apply N. now left.
  - f_equal. apply IH. intros I. apply N. now right.
Qed.

Lemma dict_set_keys_In (k k0 : K) (v : V) (d : dict K V) :
  In k (keys (dict_set k0 v d)) <-> k = k0 \/ In k (keys d).
Proof.
  destruct (in_dec (fun x y => reflect_dec _ _ (key_eqb_spec x y))
              k0 (keys d)) as [I|N].
  - rewrite dict_set_present by exact I. split; [now right|].
    intros [->|I']; assumption.
  - rewrite dict_set_absent by exact N. unfold keys.
    rewrite map_app, in_app_iff. simpl. split.
    + intros [I|[E|[]]]; [now right|now left].
    + intros [E|I]; [right; now left|now left].
Qed.

Lemma dict_set_keys_NoDup (k : K) (v : V) (d : dict K V) :
  NoDup (keys d) -> NoDup (keys (dict_set k v d)).
Proof.
  intros ND.
  destruct (in_dec (fun x y => reflect_dec _ _ (key_eqb_spec x y))
              k (keys d)) as [I|N].
  - now rewrite dict_set_present.
  - rewrite dict_set_absent by exact N. unfold keys. rewrite map_app.
    simpl. apply NoDup_app; [exact ND|repeat constructor; intros []|].
    intros x I [E|[]]. subst. now apply N.
Qed.

Lemma dict_set_In (k k0 : K) (v v0 : V) (d : dict K V) :
  In (k, v) (dict_set k0 v0 d) -> (k = k0 /\ v = v0) \/ In (k, v) d.
Proof.
  induction d as [|[k' v'] d IH]; simpl.
  - intros [E|[]]. inversion E. now left.
  - destruct (key_eqb_spec k0 k') as [->|N]; simpl.
    + intros [E|I]; [inversion E; now left|right; now right].
    + intros [E|I]; [right; now left|].
      destruct (IH I) as [L|R]; [now left|right; now right].
Qed.

Context {A : Type}.

Lemma dict_of_list_acc_facts (key : A -> K) (val : A -> V) (xs : list A)
  (acc : dict K V) :
  let d := fold_left (fun d x => dict_set (key x) (val x) d) xs acc in
  (NoDup (keys acc) -> NoDup (keys d)) /\
  (forall k, In k (keys d) <-> In k (keys acc) \/ In k (map key xs)) /\
  (forall k v, In (k, v) d ->
     In (k, v) acc \/ exists x, In x xs /\ key x = k /\ val x = v).
Proof.
  revert acc. induction xs as [|x xs IH]; intros acc; simpl.
  - split; [auto|]. split; [|auto]. intros k. tauto.
  - destruct (IH (dict_set (key x) (val x) acc)) as (ND & KS & VS).
    split; [|split].
    + intros N. apply ND. now apply dict_set_keys_NoDup.
    + intros k. rewrite KS, dict_set_keys_In.
      split; [intros [[E|I]|I]|intros [I|[E|I]]]; auto.
    + intros k v I. destruct (VS k v I) as [I'|(y & Iy & Ek & Ev)].
      * destruct (dict_set_In _ _ _ _ _ I') as [[Ek Ev]|I''].
        -- right. exists x. split; [now left|now split].
        -- now left.
      * right. exists y. split; [now right|now split].
Qed.

Lemma dict_of_list_NoDup (key : A -> K) (val : A -> V) (xs : list A) :
  NoDup (keys (dict_of_list key val xs)).
Proof.
  apply (dict_of_list_acc_facts key val xs []). constructor.
Qed.

Lemma dict_of_list_keys (key : A -> K) (val : A -> V) (xs : list A) (k : K) :
  In k (keys (dict_of_list key val xs)) <-> In k (map key xs).
Proof.
  destruct (dict_of_list_acc_facts key val xs []) as (_ & KS & _).
  unfold dict_of_list. rewrite KS. simpl. tauto.
Qed.

Lemma dict_of_list_In (key : A -> K) (val : A -> V) (xs : list A)
  (k : K) (v : V) :
  In (k, v) (dict_of_list key val xs) ->
  exists x, In x xs /\ key x = k /\ val x = v.
Proof.
  intros I.
  destruct (dict_of_list_acc_facts key val xs []) as (_ & _ & VS).
  destruct (VS k v I) as [[]|E]. exact E.
Qed.
End DictFacts.

Lemma dict_map_items_keys {K V W : Type}
  (f : K -> V -> result W) (d : dict K V) (d' : dict K W) :
  dict_map_items f d = Ok d' -> keys d' = keys d.
Proof.
  revert d'. induction d as [|[k v] d IH]; intros d'; simpl.
  - intros E. now inversion E.
  - destruct (f k v) as [w|e]; simpl; [|discriminate].
    destruct (dict_map_items f d) as [r|e]; simpl; [|discriminate].
    intros E. inversion E. simpl. f_equal. now apply IH.
Qed.

(** ** The store *)

Lemma heap_set_same (h : heap) (r : ref) (a : Agent) : heap_set h r a r = a.
Proof. unfold heap_set. now rewrite Nat.eqb_refl. Qed.

Lemma heap_set_other (h : heap) (r r' : ref) (a : Agent) :
  r' <> r -> heap_set h r a r' = h r'.
Proof.
  intros N. unfold heap_set. apply Nat.eqb_neq in N. now rewrite N.
Qed.

Lemma pay_reward_self (h : heap) (a : ref) (reward : Q) :
  pay_reward h a reward a
  = update_strategy (set_payoff (h a) (payoff (h a) + reward)) reward.
Proof. unfold pay_reward. now rewrite !heap_set_same. Qed.

Lemma pay_reward_other (h : heap) (a r : ref) (reward : Q) :
  r <> a -> pay_reward h a reward r = h r.
Proof. intros N. unfold pay_reward. now rewrite !heap_set_other. Qed.

Lemma update_strategy_profile (self : Agent) (reward : Q) :
  same_profile (update_strategy self reward) self /\
  payoff (update_strategy self reward) = payoff self /\
  resources_allocated (update_strategy self reward) = resources_allocated self.
Proof.
  unfold update_strategy, same_profile.
  destruct (Qltb 0 reward); simpl; repeat split.
Qed.

Lemma pay_reward_profile (h : heap) (a r : ref) (reward : Q) :
  same_profile (pay_reward h a reward r) (h r).
Proof.
  destruct (Nat.eq_dec r a) as [->|N].
  - rewrite pay_reward_self.
    destruct (update_strategy_profile
                (set_payoff (h a) (payoff (h a) + reward)) reward) as [P _].
    exact P.
  - rewrite pay_reward_other by exact N. now repeat split.
Qed.

Lemma pay_reward_name (h : heap) (a r : ref) (reward : Q) :
  name (pay_reward h a reward r) = name (h r).
Proof. apply pay_reward_profile. Qed.

Lemma pay_reward_payoff_self (h : heap) (a : ref) (reward : Q) :
  payoff (pay_reward h a reward a) = payoff (h a) + reward.
Proof.
  rewrite pay_reward_self.
  destruct (update_strategy_profile
              (set_payoff (h a) (payoff (h a) + reward)) reward)
    as (_ & P & _).
  now rewrite P.
Qed.

Lemma pay_reward_strategy (h : heap) (a r : ref) (reward : Q) :
  0 < strategy (h r) -> 0 < strategy (pay_reward h a reward r).
Proof.
  intros P. destruct (Nat.eq_dec r a) as [->|N].
  - rewrite pay_reward_self. now apply update_strategy_keeps_sign.
  - now rewrite pay_reward_other.
Qed.

(** ** The contribution loop *)

Lemma contribution_loop_facts (l : list (ref * Q)) (h : heap)
  (c : dict ref Q) :
  let st := fold_left contribution_step l (h, c) in
  (forall r, same_profile (fst st r) (h r) /\
             payoff (fst st r) = payoff (h r) /\
             strategy (fst st r) = strategy (h r)) /\
  (forall a x, In (a, x) (snd st) ->
     In (a, x) c \/ exists y, In (a, y) l /\ x = capability (h a) * y) /\
  (forall a, In a (keys (snd st)) <-> In a (keys c) \/ In a (keys l)) /\
  (NoDup (keys c) -> NoDup (keys (snd st))).
Proof.
  revert h c. induction l as [|[a y] l IH]; intros h c; simpl.
  - split; [|split; [|split]]; auto.
    + intros r. now repeat split.
    + intros a. tauto.
  - set (h1 := heap_set h a
                 (set_resources_allocated (h a) (resources_allocated (h a) + y))).
    assert (H1 : forall r, same_profile (h1 r) (h r) /\
                           payoff (h1 r) = payoff (h r) /\
                           strategy (h1 r) = strategy (h r)).
    { intros r. unfold h1. destruct (Nat.eq_dec r a) as [->|N].
      - rewrite heap_set_same. now repeat split.
      - rewrite heap_set_other by exact N. now repeat split. }
    destruct (IH h1 (dict_set a (capability (h1 a) * y) c))
      as (HP & VS & KS & ND).
    split; [|split; [|split]].
    + intros r. destruct (HP r) as ((E1 & E2 & E3 & E4) & E5 & E6).
      destruct (H1 r) as ((F1 & F2 & F3 & F4) & F5 & F6).
      unfold same_profile. repeat split; congruence.
    + intros b x I. destruct (VS b x I) as [I'|(z & Iz & E)].
      * destruct (dict_set_In _ _ _ _ _ I') as [[Eb Ex]|I''].
        -- right. exists y. subst. split; [now left|].
           destruct (H1 a) as ((_ & F2 & _) & _). now rewrite F2.
        -- now left.
      * right. exists z. split; [now right|].
        destruct (H1 b) as ((_ & F2 & _) & _). now rewrite <- F2.
    + intros b. rewrite KS, dict_set_keys_In.
      split; [intros [[E|I]|I]|intros [I|[E|I]]]; auto.
    + intros N. apply ND. now apply dict_set_keys_NoDup.
Qed.

Lemma round_contributions_heap (allocation : dict ref Q) (h : heap) (r : ref) :
  same_profile (fst (round_contributions allocation h) r) (h r) /\
  payoff (fst (round_contributions allocation h) r) = payoff (h r) /\
  strategy (fst (round_contributions allocation h) r) = strategy (h r).
Proof. apply (contribution_loop_facts allocation h []). Qed.

Lemma round_contributions_In (allocation : dict ref Q) (h : heap)
  (a : ref) (x : Q) :
  In (a, x) (snd (round_contributions allocation h)) ->
  exists y, In (a, y) allocation /\ x = capability (h a) * y.
Proof.
  intros I.
  destruct (contribution_loop_facts allocation h []) as (_ & VS & _).
  destruct (VS a x I) as [[]|E]. exact E.
Qed.

Lemma round_contributions_keys (allocation : dict ref Q) (h : heap) (a : ref) :
  In a (keys (snd (round_contributions allocation h))) <->
  In a (keys allocation).
Proof.
  destruct (contribution_loop_facts allocation h []) as (_ & _ & KS & _).
  rewrite KS. simpl. tauto.
Qed.

Lemma round_contributions_NoDup (allocation : dict ref Q) (h : heap) :
  NoDup (keys (snd (round_contributions allocation h))).
Proof.
  apply (contribution_loop_facts allocation h []). constructor.
Qed.

(** ** The reward loop *)

Lemma reward_step_Ok (allocation : dict ref Q) (total : Q) (h : heap)
  (ph ah : history) (cs : list call) (a : ref) (sv : Q)
  (lp la : list Q) (x : Q) :
  dict_get (name (h a)) ph = Ok lp ->
  dict_get (name (h a)) ah = Ok la ->
  dict_get a allocation = Ok x ->
  reward_step allocation total (Ok (h, ph, ah, cs)) (a, sv)
  = Ok (pay_reward h a (sv * total),
        dict_set (name (h a)) (lp ++ [payoff (h a) + sv * total]) ph,
        dict_set (name (h a)) (la ++ [x]) ah,
        cs ++ [CallUpdateStrategy a (sv * total)]).
Proof.
  intros Gp Ga Gx. unfold reward_step. simpl.
  rewrite pay_reward_name, pay_reward_payoff_self.
  unfold history_append. rewrite Gp, Ga, Gx. reflexivity.
Qed.

Section RewardLoop.
Variables (allocation : dict ref Q) (total : Q) (l : list (ref * Q)).
Variables (h0 : heap) (ph0 ah0 : history).
Variable P : list (ref * Q) -> heap -> history -> history -> list call -> Prop.

Hypothesis ready : forall a, In a (keys l) ->
  In (name (h0 a)) (keys ph0) /\ In (name (h0 a)) (keys ah0) /\
  In a (keys allocation).

Hypothesis step : forall done a sv rest h ph ah cs lp la x,
  l = done ++ (a, sv) :: rest ->
  (forall r, same_profile (h r) (h0 r)) ->
  dict_get (name (h0 a)) ph = Ok lp ->
  dict_get (name (h0 a)) ah = Ok la ->
  dict_get a allocation = Ok x ->
  P done h ph ah cs ->
  P (done ++ [(a, sv)]) (pay_reward h a (sv * total))
    (dict_set (name (h0 a)) (lp ++ [payoff (h a) + sv * total]) ph)
    (dict_set (name (h0 a)) (la ++ [x]) ah)
    (cs ++ [CallUpdateStrategy a (sv * total)]).

Lemma reward_loop_suffix (rest done : list (ref * Q)) (h : heap)
  (ph ah : history) (cs : list call) :
  l = done ++ rest ->
  (forall r, same_profile (h r) (h0 r)) ->
  keys ph = keys ph0 -> keys ah = keys ah0 ->
  P done h ph ah cs ->
  exists h' ph' ah' cs',
    fold_left (reward_step allocation total) rest (Ok (h, ph, ah, cs))
    = Ok (h', ph', ah', cs') /\
    P l h' ph' ah' cs' /\
    (forall r, same_profile (h' r) (h0 r)) /\
    keys ph' = keys ph0 /\ keys ah' = keys ah0.
Proof.
  revert done h ph ah cs.
  induction rest as [|[a sv] rest IH]; intros done h ph ah cs E SP Kp Ka Pd.
  - rewrite app_nil_r in E. subst done. simpl.
    exists h, ph, ah, cs. split; [reflexivity|]. now split.
  - assert (Ia : In a (keys l)).
    { rewrite E. unfold keys. rewrite map_app, in_app_iff. right. now left. }
    destruct (ready a Ia) as (Rp & Ra & Rx).
    rewrite <- Kp in Rp. rewrite <- Ka in Ra.
    apply dict_get_In in Rp, Ra, Rx.
    destruct Rp as [lp Gp], Ra as [la Ga], Rx as [x Gx].
    assert (Nm : name (h a) = name (h0 a)) by apply SP.
    cbn [fold_left].
    rewrite (reward_step_Ok allocation total h ph ah cs a sv lp la x)
      by (rewrite ?Nm; assumption).
    rewrite Nm.
    apply (IH (done ++ [(a, sv)])).
    + rewrite <- app_assoc. exact E.
    + intros r. destruct (pay_reward_profile h a r (sv * total))
        as (E1 & E2 & E3 & E4).
      destruct (SP r) as (F1 & F2 & F3 & F4).
      unfold same_profile. repeat split; congruence.
    + rewrite dict_set_present; [exact Kp|].
      apply dict_get_In. now exists lp.
    + rewrite dict_set_present; [exact Ka|].
      apply dict_get_In. now exists la.
    + now apply (step done a sv rest).
Qed.

Lemma round_rewards_invariant (cs : list call) :
  P [] h0 ph0 ah0 cs ->
  exists h' ph' ah' cs',
    round_rewards l allocation total h0 ph0 ah0 cs
    = Ok (h', ph', ah', cs') /\
    P l h' ph' ah' cs' /\
    (forall r, same_profile (h' r) (h0 r)) /\
    keys ph' = keys ph0 /\ keys ah' = keys ah0.
Proof.
  intros P0. unfold round_rewards.
  apply (reward_loop_suffix l []); auto.
  intros r. now repeat split.
Qed.
End RewardLoop.

(** ** One round *)

Lemma round_bids_In (agents : list ref) (h : heap) (remaining : Q)
  (a : ref) (b : Q) :
  In (a, b) (round_bids agents h remaining) ->
  In a agents /\ b = bid (h a) remaining.
Proof.
  intros I. apply dict_of_list_In in I.
  destruct I as (x & Ix & E1 & E2). subst. now split.
Qed.

Lemma round_bids_keys (agents : list ref) (h : heap) (remaining : Q) (a : ref) :
  In a (keys (round_bids agents h remaining)) <-> In a agents.
Proof.
  unfold round_bids. rewrite dict_of_list_keys, map_id. reflexivity.
Qed.

Lemma Qsum_below_cap (xs : list Q) (cap : Q) :
  xs <> [] -> cap < 0 -> (forall x, In x xs -> x <= cap) -> Qsum xs <= cap.
Proof.
  induction xs as [|x xs IH]; intros NE C B; [congruence|]. simpl.
  assert (x <= cap) by (apply B; now left).
  destruct xs as [|y ys].
  - simpl. lra.
  - assert (Qsum (y :: ys) <= cap).
    { apply IH; [discriminate|exact C|]. intros; apply B; now right. }
    lra.
Qed.

(** [allocate] returns whenever no bid exceeds the remaining resources:
    the sum of such bids is zero only if it is within the supply or the
    bid map is empty. *)
Lemma allocate_returns (self : ResourcePool) (bids : dict ref Q) :
  (forall b, In b (values bids) -> b <= remaining_resources self) ->
  exists allocation,
    allocate self bids
    = Ok (allocation,
          mkPool (total_resources self)
                 (remaining_resources self - pysum (values allocation))) /\
    keys allocation = keys bids /\
    (allocation = bids \/
     remaining_resources self < pysum (values bids) /\
     allocation
     = map (fun kv => (fst kv, snd kv / pysum (values bids)
                               * remaining_resources self)) bids).
Proof.
  intros B.
  destruct (Qlt_le_dec (remaining_resources self) (pysum (values bids)))
    as [L|L].
  - destruct bids as [|[a b] bids].
    + exists []. unfold allocate. apply Qle_bool_gt in L. rewrite L.
      simpl. split; [reflexivity|]. split; [reflexivity|]. now left.
    + assert (NZ : ~ pysum (values ((a, b) :: bids)) == 0).
      { intros Z.
        assert (C : remaining_resources self < 0) by lra.
        assert (Qsum (values ((a, b) :: bids)) <= remaining_resources self)
          by (apply Qsum_below_cap; [discriminate|exact C|exact B]).
        rewrite pysum_Qsum in L. lra. }
      destruct (allocate_shortfall self _ L NZ) as [E _].
      eexists. split; [exact E|]. split.
      * apply (keys_map_values
                 (fun v => v / pysum (values ((a, b) :: bids))
                           * remaining_resources self)).
      * right. now split.
  - exists bids. split; [exact (allocate_enough self bids L)|].
    split; [reflexivity|]. now left.
Qed.

Lemma compute_shapley_value_returns (contributions : dict ref Q) (total : Q) :
  exists shares,
    compute_shapley_value contributions total = Ok shares /\
    keys shares = keys contributions /\
    (0 < total ->
       shares = map (fun kv => (fst kv, snd kv / total)) contributions) /\
    (~ 0 < total ->
       shares = map (fun kv => (fst kv, 0)) contributions).
Proof.
  destruct (Qlt_le_dec 0 total) as [P|Z].
  - eexists. split; [exact (compute_shapley_value_positive _ _ P)|].
    split; [apply (keys_map_values (fun c => c / total))|].
    split; [reflexivity|]. intros N. contradiction.
  - assert (N : ~ 0 < total) by (intros P; lra).
    eexists. split; [exact (compute_shapley_value_guarded _ _ N)|].
    split; [apply (keys_map_values (fun _ : Q => 0))|].
    split; [|reflexivity]. intros P. contradiction.
Qed.

(** The round, phase by phase: it returns whenever both histories hold
    the names of the listed agents, and any property the reward loop
    preserves holds of the state it leaves. *)
Lemma game_round_run (agents : list ref) (g : Game) :
  history_ready agents g ->
  let total := total_resources (resource_pool g) in
  let bids := round_bids agents (agents_heap g) total in
  exists allocation shapley,
    allocate (replenish (resource_pool g)) bids
    = Ok (allocation, mkPool total (total - pysum (values allocation))) /\
    keys allocation = keys bids /\
    (allocation = bids \/
     total < pysum (values bids) /\
     allocation
     = map (fun kv => (fst kv, snd kv / pysum (values bids) * total)) bids) /\
    let h1 := fst (round_contributions allocation (agents_heap g)) in
    let contributions := snd (round_contributions allocation (agents_heap g)) in
    let total_contribution := pysum (values contributions) in
    compute_shapley_value contributions total_contribution = Ok shapley /\
    keys shapley = keys contributions /\
    forall P,
      reward_step_preserves allocation total shapley h1 P ->
      P [] h1 (payoff_history g) (allocation_history g)
        ((calls g ++ [CallReplenish])
           ++ map (fun a => CallBid a total) agents ++ [CallAllocate bids]) ->
      exists h2 ph ah cs,
        game_round agents g
        = Ok (mkRound bids allocation contributions total_contribution shapley
                (mkGame h2 (mkPool total (total - pysum (values allocation)))
                   ph ah cs)) /\
        P shapley h2 ph ah cs /\
        (forall r, same_profile (h2 r) (agents_heap g r)) /\
        keys ph = keys (payoff_history g) /\
        keys ah = keys (allocation_history g).
Proof.
  intros HR total bids.
  destruct (allocate_returns (replenish (resource_pool g)) bids)
    as (allocation & EA & KA & FA).
  { intros b I. apply values_In in I. destruct I as [a I].
    apply round_bids_In in I. destruct I as [_ ->]. apply pymin_le_r. }
  destruct (compute_shapley_value_returns
              (snd (round_contributions allocation (agents_heap g)))
              (pysum (values (snd (round_contributions allocation
                                     (agents_heap g))))))
    as (shapley & ES & KS & _).
  exists allocation, shapley. split; [exact EA|]. split; [exact KA|].
  split; [exact FA|]. intros h1 contributions total_contribution.
  split; [exact ES|]. split; [exact KS|]. intros P St P0.
  destruct (round_rewards_invariant allocation total shapley h1
              (payoff_history g) (allocation_history g) P) with (cs :=
              (calls g ++ [CallReplenish])
                ++ map (fun a => CallBid a total) agents ++ [CallAllocate bids])
    as (h2 & ph & ah & cs & ER & PR & SP & Kp & Ka).
  - intros a I. rewrite KS in I.
    apply round_contributions_keys in I.
    assert (Ig : In a agents).
    { rewrite KA in I. now apply round_bids_keys in I. }
    destruct (round_contributions_heap allocation (agents_heap g) a)
      as ((Nm & _) & _).
    unfold h1. rewrite Nm. destruct (HR a Ig) as [Rp Ra].
    now repeat split.
  - exact St.
  - exact P0.
  - exists h2, ph, ah, cs. split; [|split; [exact PR|split; [|now split]]].
    + unfold game_round.
      change (remaining_resources (replenish (resource_pool g))) with total.
      fold bids. rewrite EA. cbn [bind].
      change (total_resources (replenish (resource_pool g))) with total.
      change (remaining_resources (replenish (resource_pool g))) with total.
      cbn [total_resources].
      rewrite <- (app_assoc (calls g ++ [CallReplenish])).
      unfold h1 in ER. clear - ES ER.
      destruct (round_contributions allocation (agents_heap g))
        as [h1' contributions'].
      cbn [fst snd] in *. rewrite ES. cbn [bind]. rewrite ER. reflexivity.
    + intros r. destruct (SP r) as (E1 & E2 & E3 & E4).
      destruct (round_contributions_heap allocation (agents_heap g) r)
        as ((F1 & F2 & F3 & F4) & _).
      fold h1 in F1, F2, F3, F4.
      unfold same_profile. repeat split; congruence.
Qed.

Lemma keys_app {K V : Type} (d d' : dict K V) :
  keys (d ++ d') = keys d ++ keys d'.
Proof. apply map_app. Qed.

Lemma In_keys {K V : Type} (k : K) (v : V) (d : dict K V) :
  In (k, v) d -> In k (keys d).
Proof. intros I. apply (in_map fst) in I. exact I. Qed.

Lemma reward_loop_inv_step (agents : list ref) (allocation : dict ref Q)
  (total : Q) (l : list (ref * Q)) (h1 : heap) (ph0 ah0 : history) :
  NoDup (keys l) ->
  (forall a, In a (keys l) -> In a agents) ->
  reward_step_preserves allocation total l h1
    (reward_loop_inv agents allocation total h1 ph0 ah0).
Proof.
  intros ND Sub done a sv rest h ph ah cs lp la x E SP Gp Ga Gx
    (Paid & Rest & Str & Hist).
  assert (Fresh : ~ In a (keys done)).
  { rewrite E, keys_app in ND. simpl in ND.
    apply NoDup_remove_2 in ND. intros I. apply ND.
    apply in_app_iff. now left. }
  assert (Ia : In a agents).
  { apply Sub. rewrite E, keys_app. apply in_app_iff. right. now left. }
  unfold reward_loop_inv. split; [|split; [|split]].
  - intros b sb I. apply in_app_iff in I. destruct I as [I|[I|[]]].
    + assert (b <> a).
      { intros ->. apply Fresh. eapply In_keys, I. }
      rewrite pay_reward_other by assumption. now apply Paid.
    + inversion I; subst. rewrite pay_reward_payoff_self.
      now rewrite (Rest b Fresh).
  - intros b N. rewrite keys_app, in_app_iff in N. simpl in N.
    assert (b <> a) by (intros ->; apply N; right; now left).
    rewrite pay_reward_other by assumption. apply Rest. tauto.
  - intros b Pb. apply pay_reward_strategy. now apply Str.
  - intros U b lpb lab Ib Gpb Gab.
    destruct (Hist U b lpb lab Ib Gpb Gab) as [HIn HOut].
    rewrite keys_app, in_app_iff. simpl.
    destruct (Nat.eq_dec b a) as [->|N].
    + destruct (HOut Fresh) as [Gp' Ga'].
      assert (lp = lpb) by congruence. assert (la = lab) by congruence.
      subst lpb lab. split.
      * intros _. exists x. split; [exact Gx|].
        rewrite !dict_get_set_same, pay_reward_payoff_self. now split.
      * intros N. exfalso. apply N. right. now left.
    + assert (Nn : name (h1 b) <> name (h1 a)).
      { intros En. apply N. now apply U. }
      rewrite !(dict_get_set_other _ _ _ _ Nn).
      rewrite pay_reward_other by exact N. split.
      * intros [I|[Eq|[]]]; [now apply HIn|congruence].
      * intros NI. apply HOut. tauto.
Qed.

(** Every round started with both histories ready returns, and returns a
    sound round. *)
Lemma game_round_sound (agents : list ref) (g : Game) :
  history_ready agents g ->
  exists r, game_round agents g = Ok r /\ round_sound agents g r.
Proof.
  intros HR.
  destruct (game_round_run agents g HR)
    as (alloc & shap & EA & KA & FA & ES & KS & Run).
  set (total := total_resources (resource_pool g)) in *.
  set (h := agents_heap g) in *.
  set (h1 := fst (round_contributions alloc h)) in *.
  assert (H1 : forall a, same_profile (h1 a) (h a) /\
                         payoff (h1 a) = payoff (h a) /\
                         strategy (h1 a) = strategy (h a))
    by (intros a; apply round_contributions_heap).
  assert (ND : NoDup (keys shap))
    by (rewrite KS; apply round_contributions_NoDup).
  assert (KI : forall a, In a (keys shap) <-> In a agents).
  { intros a. rewrite KS, round_contributions_keys, KA.
    apply round_bids_keys. }
  destruct (Run (reward_loop_inv agents alloc total h1
                   (payoff_history g) (allocation_history g)))
    as (h2 & ph & ah & cs & EG & (Paid & Rest & Str & Hist) & SP & Kp & Ka).
  { apply reward_loop_inv_step; [exact ND|]. intros a I. now apply KI. }
  { unfold reward_loop_inv. split; [|split; [|split]].
    - intros a sv [].
    - reflexivity.
    - auto.
    - intros _ a lp la _ Gp Ga. split; [intros []|now split]. }
  eexists. split; [exact EG|].
  unfold round_sound. cbn [bids allocation contributions total_contribution
                            shapley_values after agents_heap resource_pool
                            payoff_history allocation_history
                            total_resources].
  fold total. fold h.
  repeat (split; [first [reflexivity|assumption]|]).
  split; [|split; [|split; [|split; [|split; [|split; [|split]]]]]].
  - intros a sv I. rewrite (Paid a sv I).
    destruct (H1 a) as (_ & E & _). now rewrite E.
  - intros a N. rewrite Rest; [apply H1|]. intros I. apply N. now apply KI.
  - exact SP.
  - intros a Pa. apply Str. destruct (H1 a) as (_ & _ & E). now rewrite E.
  - intros a Ia. unfold history_ready in HR. simpl.
    destruct (SP a) as (Nm & _). rewrite Nm, Kp, Ka. now apply HR.
  - exact Kp.
  - exact Ka.
  - intros U a lp la Ia Gp Ga.
    assert (Nm : forall b, name (h1 b) = name (h b)) by (intros b; apply H1).
    assert (U1 : unique_names agents h1).
    { intros b c Ib Ic. rewrite !Nm. now apply U. }
    rewrite <- Nm in Gp, Ga |- *.
    destruct (Hist U1 a lp la Ia Gp Ga) as [HIn _].
    apply HIn. now apply KI.
Qed.

(** ** The loop over rounds *)

Lemma game_rounds_snoc (agents : list ref) (n : nat) (g : Game) :
  game_rounds agents (S n) g
  = (g' <- game_rounds agents n g ;;
     r <- game_round agents g' ;;
     Ok (after r)).
Proof.
  revert g. induction n as [|n IH]; intros g.
  - reflexivity.
  - change (game_rounds agents (S (S n)) g)
      with (r <- game_round agents g ;; game_rounds agents (S n) (after r)).
    change (game_rounds agents (S n) g)
      with (r <- game_round agents g ;; game_rounds agents n (after r)).
    destruct (game_round agents g) as [r|e]; [|reflexivity].
    cbn [bind]. apply IH.
Qed.

Lemma dict_get_Ok_In {K V : Type} `{Hashable K} (k : K) (v : V)
  (d : dict K V) :
  dict_get k d = Ok v -> In (k, v) d.
Proof.
  induction d as [|[k' v'] d IH]; simpl; [discriminate|].
  destruct (key_eqb_spec k k') as [->|N].
  - intros E. inversion E. now left.
  - intros E. right. now apply IH.
Qed.

Lemma empty_history_get (agents : list ref) (h : heap) (a : ref) :
  In a agents -> dict_get (name (h a)) (empty_history agents h) = Ok [].
Proof.
  intros I.
  assert (Ik : In (name (h a)) (keys (empty_history agents h))).
  { unfold empty_history. rewrite dict_of_list_keys.
    apply (in_map (fun a => name (h a))), I. }
  apply dict_get_In in Ik. destruct Ik as [v G]. rewrite G. f_equal.
  apply dict_get_Ok_In, dict_of_list_In in G.
  destruct G as (x & _ & _ & E). now symmetry.
Qed.

Lemma empty_history_ready (agents : list ref) (h : heap)
  (pool : ResourcePool) (cs : list call) :
  history_ready agents
    (mkGame h pool (empty_history agents h) (empty_history agents h) cs).
Proof.
  intros a I. simpl.
  assert (In (name (h a)) (keys (empty_history agents h))).
  { apply dict_get_In. exists []. now apply empty_history_get. }
  now split.
Qed.

(** Any number of rounds returns; the total, the agents' parameters and
    the sign of every strategy are kept, and with unique names each
    listed agent's sequences grow by one value per round. *)
Lemma game_rounds_returns (agents : list ref) (n : nat) (g : Game) :
  history_ready agents g ->
  exists g',
    game_rounds agents n g = Ok g' /\
    history_ready agents g' /\
    total_resources (resource_pool g') = total_resources (resource_pool g) /\
    (forall a, same_profile (agents_heap g' a) (agents_heap g a)) /\
    (forall a, 0 < strategy (agents_heap g a) ->
               0 < strategy (agents_heap g' a)) /\
    keys (payoff_history g') = keys (payoff_history g) /\
    keys (allocation_history g') = keys (allocation_history g) /\
    (unique_names agents (agents_heap g) ->
     forall a lp la, In a agents ->
       dict_get (name (agents_heap g a)) (payoff_history g) = Ok lp ->
       dict_get (name (agents_heap g a)) (allocation_history g) = Ok la ->
       exists lp' la',
         dict_get (name (agents_heap g a)) (payoff_history g')
         = Ok (lp ++ lp') /\
         dict_get (name (agents_heap g a)) (allocation_history g')
         = Ok (la ++ la') /\
         List.length lp' = n /\ List.length la' = n).
Proof.
  revert g. induction n as [|n IH]; intros g HR.
  - exists g. split; [reflexivity|]. split; [exact HR|].
    split; [reflexivity|]. split; [intros a; now repeat split|].
    split; [auto|]. split; [reflexivity|]. split; [reflexivity|].
    intros _ a lp la _ Gp Ga. exists [], [].
    rewrite !app_nil_r. now repeat split.
  - destruct (game_round_sound agents g HR) as (r & ER & Snd).
    destruct Snd as (_ & _ & Tot & _ & _ & _ & _ & _ & _ & _ & _ & Prof
                     & Str & HR' & Kp & Ka & Hist).
    destruct (IH (after r) HR')
      as (g' & EG & HRg & Tg & Pg & Sg & Kpg & Kag & Hg).
    exists g'. cbn [game_rounds]. rewrite ER. cbn [bind].
    split; [exact EG|]. split; [exact HRg|].
    split; [congruence|]. split; [|split; [|split; [|split]]].
    + intros a. destruct (Pg a) as (E1 & E2 & E3 & E4).
      destruct (Prof a) as (F1 & F2 & F3 & F4).
      unfold same_profile. repeat split; congruence.
    + intros a Pa. now apply Sg, Str.
    + congruence.
    + congruence.
    + intros U a lp la Ia Gp Ga.
      assert (Nm : forall b, name (agents_heap (after r) b)
                             = name (agents_heap g b))
        by (intros b; apply Prof).
      assert (U' : unique_names agents (agents_heap (after r))).
      { intros b c Ib Ic. rewrite !Nm. now apply U. }
      destruct (Hist U a lp la Ia Gp Ga) as (x & _ & Gp1 & Ga1).
      rewrite <- Nm in Gp1, Ga1.
      destruct (Hg U' a _ _ Ia Gp1 Ga1) as (lp' & la' & Gp2 & Ga2 & Lp & La).
      rewrite Nm in Gp2, Ga2. rewrite <- app_assoc in Gp2, Ga2.
      eexists _, _. split; [exact Gp2|]. split; [exact Ga2|].
      simpl. now rewrite Lp, La.
Qed.

(** The game after [R] rounds, and the round that follows. *)
Lemma game_reaches (agents : list ref) (h : heap) (pool : ResourcePool)
  (R : nat) :
  exists g r,
    resource_allocation_game agents h pool R = Ok g /\
    game_round agents g = Ok r /\
    resource_allocation_game agents h pool (S R) = Ok (after r) /\
    round_sound agents g r /\
    total_resources (resource_pool g) = total_resources pool /\
    (forall a, same_profile (agents_heap g a) (h a)) /\
    (forall a, 0 < strategy (h a) -> 0 < strategy (agents_heap g a)).
Proof.
  unfold resource_allocation_game.
  destruct (game_rounds_returns agents R _
              (empty_history_ready agents h pool []))
    as (g & EG & HR & Tot & Prof & Str & _).
  destruct (game_round_sound agents g HR) as (r & ER & Snd).
  exists g, r. split; [exact EG|]. split; [exact ER|].
  split; [|split; [exact Snd|split; [exact Tot|split; [exact Prof|exact Str]]]].
  rewrite game_rounds_snoc, EG. cbn [bind]. now rewrite ER.
Qed.

(** C7: a new agent's strategy is 1; every call of [update_strategy]
    multiplies it by 11/10 or by 9/10, so it is positive after any
    sequence of calls; and every run of the game, which assigns the
    strategy nowhere else, returns with every positive strategy still
    positive. *)
Theorem strategy_stays_positive :
  (forall n c r s, strategy (Agent_init n c r s) = 1) /\
  (forall self reward,
     strategy (update_strategy self reward) = strategy self * (11 # 10) \/
     strategy (update_strategy self reward) = strategy self * (9 # 10)) /\
  (forall n c r s rewards,
     0 < strategy (fold_left update_strategy rewards (Agent_init n c r s))) /\
  (forall agents h pool R,
     exists g,
       resource_allocation_game agents h pool R = Ok g /\
       forall a, 0 < strategy (h a) -> 0 < strategy (agents_heap g a)).
Proof.
  split; [reflexivity|]. split; [|split].
  - intros self reward. unfold update_strategy.
    destruct (Qltb 0 reward); [now left|now right].
  - intros n c r s rewards. apply update_sequence_positive. reflexivity.
  - intros agents h pool R.
    destruct (game_reaches agents h pool R) as (g & _ & EG & _ & _ & _ & _ & _ & Str).
    exists g. now split.
Qed.

(** ** Rewards and payoffs of a round *)

Lemma Qsum_Permutation (xs ys : list Q) :
  Permutation xs ys -> Qsum xs == Qsum ys.
Proof.
  induction 1 as [|x xs ys _ IH|x y xs|xs ys zs _ IH1 _ IH2]; simpl.
  - reflexivity.
  - now rewrite IH.
  - ring.
  - now rewrite IH1.
Qed.

Lemma aggregate_payoff_keys (agents : list ref) (h : heap) (ks : list ref) :
  NoDup ks -> (forall a, In a ks <-> In a agents) ->
  aggregate_payoff agents h == Qsum (map (fun a => payoff (h a)) ks).
Proof.
  intros ND I. unfold aggregate_payoff.
  apply Qsum_Permutation, Permutation_map, NoDup_Permutation.
  - apply NoDup_nodup.
  - exact ND.
  - intros a. rewrite nodup_In. symmetry. apply I.
Qed.

Lemma paid_sum (h h' : heap) (total : Q) (l : list (ref * Q)) :
  (forall a sv, In (a, sv) l -> payoff (h' a) = payoff (h a) + sv * total) ->
  Qsum (map (fun a => payoff (h' a)) (keys l))
  == Qsum (map (fun a => payoff (h a)) (keys l))
     + Qsum (map (fun kv => snd kv * total) l).
Proof.
  induction l as [|[a sv] l IH]; intros Paid; simpl.
  - ring.
  - rewrite (Paid a sv) by now left.
    rewrite IH by (intros; apply Paid; now right). ring.
Qed.

Lemma rewards_sum (contributions shares : dict ref Q) (total_contribution
  total : Q) :
  compute_shapley_value contributions total_contribution = Ok shares ->
  total_contribution = pysum (values contributions) ->
  (0 < total_contribution ->
     Qsum (map (fun kv => snd kv * total) shares) == total) /\
  (~ 0 < total_contribution ->
     forall x, In x (map (fun kv => snd kv * total) shares) -> x == 0).
Proof.
  intros E T.
  destruct (compute_shapley_value_returns contributions total_contribution)
    as (shares' & E' & _ & Pos & Zero).
  assert (shares' = shares) by congruence. subst shares'. split.
  - intros P. rewrite (Pos P).
    rewrite map_map. cbn [snd].
    rewrite <- (map_map snd (fun c => c / total_contribution * total)).
    rewrite (Qsum_map_scale _ (total / total_contribution)).
    + fold (values contributions). rewrite <- pysum_Qsum, <- T.
      field. lra.
    + intros x. field. lra.
  - intros N x I. rewrite (Zero N) in I. rewrite map_map in I.
    apply in_map_iff in I. destruct I as (kv & <- & _). simpl. ring.
Qed.

(** C10: every round of the game returns; in a round whose total
    contribution is positive the rewards sum to the pool's total
    resources and the aggregate payoff of the agents grows by exactly
    that total, and in a round whose total contribution is zero every
    reward is zero and the aggregate payoff keeps its value. *)
Theorem rewards_sum_to_total (agents : list ref) (h : heap)
  (pool : ResourcePool) (R : nat) :
  exists g r,
    resource_allocation_game agents h pool R = Ok g /\
    game_round agents g = Ok r /\
    resource_allocation_game agents h pool (S R) = Ok (after r) /\
    (0 < total_contribution r ->
       Qsum (rewards r (total_resources pool)) == total_resources pool /\
       aggregate_payoff agents (agents_heap (after r))
       == aggregate_payoff agents (agents_heap g) + total_resources pool) /\
    (total_contribution r == 0 ->
       (forall x, In x (rewards r (total_resources pool)) -> x == 0) /\
       aggregate_payoff agents (agents_heap (after r))
       == aggregate_payoff agents (agents_heap g)).
Proof.
  destruct (game_reaches agents h pool R)
    as (g & r & EG & ER & ES & Snd & Tot & _ & _).
  exists g, r. split; [exact EG|]. split; [exact ER|]. split; [exact ES|].
  destruct Snd as (_ & _ & _ & _ & _ & TC & SV & ND & KI & Paid & _).
  cbv zeta in Paid. rewrite Tot in Paid.
  destruct (rewards_sum _ _ _ (total_resources pool) SV TC) as [Pos Zero].
  assert (Agg : aggregate_payoff agents (agents_heap (after r))
                == aggregate_payoff agents (agents_heap g)
                   + Qsum (rewards r (total_resources pool))).
  { rewrite !(aggregate_payoff_keys agents _ (keys (shapley_values r)) ND KI).
    now apply paid_sum. }
  split.
  - intros P. split; [now apply Pos|]. rewrite Agg.
    unfold rewards. rewrite (Pos P). reflexivity.
  - intros Z. assert (N : ~ 0 < total_contribution r) by (intros P; lra).
    split; [now apply Zero|]. rewrite Agg.
    unfold rewards. rewrite (Qsum_all_zero _ (Zero N)). ring.
Qed.

Lemma bid_nonneg (self : Agent) (remaining : Q) :
  agent_ok self -> 0 <= remaining -> 0 <= bid self remaining.
Proof.
  intros (_ & N & S & T) R. unfold bid.
  apply pymin_glb; [|exact R]. apply demand_nonneg; try assumption. lra.
Qed.

Lemma shares_nonneg (contributions shares : dict ref Q) (total : Q) :
  (forall a c, In (a, c) contributions -> 0 <= c) ->
  compute_shapley_value contributions total = Ok shares ->
  forall a s, In (a, s) shares -> 0 <= s.
Proof.
  intros N E a s I.
  destruct (compute_shapley_value_returns contributions total)
    as (shares' & E' & _ & Pos & Zero).
  assert (shares' = shares) by congruence. subst shares'.
  destruct (Qlt_le_dec 0 total) as [P|Z].
  - rewrite (Pos P) in I. apply in_map_iff in I.
    destruct I as ([a' c] & Eq & I). simpl in Eq. inversion Eq; subst.
    apply Qle_shift_div_l; [exact P|]. rewrite Qmult_0_l. eapply N, I.
  - assert (NP : ~ 0 < total) by (intros P; lra).
    rewrite (Zero NP) in I. apply in_map_iff in I.
    destruct I as ([a' c] & Eq & I). simpl in Eq. inversion Eq; subst.
    apply Qle_refl.
Qed.

(** With a non-negative total and sound agents, the bids, the allocation,
    the contributions and the value shares of a round are non-negative. *)
Lemma round_shares_nonneg (agents : list ref) (g : Game) (r : Round) :
  round_sound agents g r ->
  0 <= total_resources (resource_pool g) ->
  (forall a, In a agents -> agent_ok (agents_heap g a)) ->
  forall a sv, In (a, sv) (shapley_values r) -> 0 <= sv.
Proof.
  intros (EB & _ & _ & FA & EC & _ & SV & _ & _) T OK.
  cbv zeta in *.
  assert (NB : forall a b, In (a, b) (bids r) -> In a agents /\ 0 <= b).
  { intros a b I. rewrite EB in I. apply round_bids_In in I.
    destruct I as [Ia ->]. split; [exact Ia|].
    apply bid_nonneg; [now apply OK|exact T]. }
  assert (NA : forall a x, In (a, x) (allocation r) -> In a agents /\ 0 <= x).
  { intros a x I. destruct FA as [E|[L E]]; rewrite E in I; [now apply NB|].
    apply in_map_iff in I. destruct I as ([a' b] & Eq & I).
    simpl in Eq. inversion Eq; subst. destruct (NB _ _ I) as [Ia Nb].
    split; [exact Ia|]. apply Qmult_le_0_compat; [|exact T].
    apply Qle_shift_div_l; [lra|]. now rewrite Qmult_0_l. }
  assert (NC : forall a c, In (a, c) (contributions r) -> 0 <= c).
  { intros a c I. rewrite EC in I. apply round_contributions_In in I.
    destruct I as (y & I & ->). destruct (NA _ _ I) as [Ia Ny].
    apply Qmult_le_0_compat; [|exact Ny]. now apply OK. }
  exact (shares_nonneg _ _ _ NC SV).
Qed.

(** From a state reached by the game over sound agents on a pool of
    positive total, the next round pays non-negative rewards only. *)
Lemma payoff_grows_by_rewards (agents : list ref) (h : heap)
  (pool : ResourcePool) (R : nat) :
  0 < total_resources pool ->
  (forall a, In a agents -> agent_ok (h a)) ->
  exists g r,
    resource_allocation_game agents h pool R = Ok g /\
    game_round agents g = Ok r /\
    resource_allocation_game agents h pool (S R) = Ok (after r) /\
    (forall a sv, In (a, sv) (shapley_values r) ->
       0 <= sv * total_resources pool /\
       payoff (agents_heap (after r) a)
       = payoff (agents_heap g a) + sv * total_resources pool) /\
    (forall a, ~ In a agents ->
       payoff (agents_heap (after r) a) = payoff (agents_heap g a)) /\
    (forall a, payoff (agents_heap g a) <= payoff (agents_heap (after r) a)).
Proof.
  intros T OK.
  destruct (game_reaches agents h pool R)
    as (g & r & EG & ER & ES & Snd & Tot & Prof & Str).
  exists g, r. split; [exact EG|]. split; [exact ER|]. split; [exact ES|].
  assert (OKg : forall a, In a agents -> agent_ok (agents_heap g a)).
  { intros a Ia. destruct (OK a Ia) as (C & N & S & P).
    destruct (Prof a) as (_ & E2 & E3 & E4).
    unfold agent_ok. rewrite E2, E3, E4. repeat split; try assumption.
    now apply Str. }
  assert (NS : forall a sv, In (a, sv) (shapley_values r) -> 0 <= sv).
  { apply (round_shares_nonneg agents g r Snd); [rewrite Tot; lra|exact OKg]. }
  destruct Snd as (_ & _ & _ & _ & _ & _ & _ & ND & KI & Paid & Rest & _).
  cbv zeta in Paid, Rest. rewrite Tot in Paid.
  assert (NR : forall a sv, In (a, sv) (shapley_values r) ->
                 0 <= sv * total_resources pool).
  { intros a sv I. apply Qmult_le_0_compat; [now apply (NS a)|lra]. }
  split; [|split].
  - intros a sv I. split; [now apply (NR a)|now apply Paid].
  - exact Rest.
  - intros a. destruct (in_dec Nat.eq_dec a (keys (shapley_values r)))
      as [I|N].
    + apply in_map_iff in I. destruct I as ([a' sv] & Eq & I).
      simpl in Eq. subst a'. rewrite (Paid a sv I).
      assert (0 <= sv * total_resources pool) by now apply (NR a).
      lra.
    + rewrite Rest; [apply Qle_refl|]. intros I. apply N. now apply KI.
Qed.

Lemma constructed_agent_ok (a : Agent) : constructed a -> agent_ok a.
Proof.
  intros (n & c & r & s & -> & C & N & S).
  unfold agent_ok. simpl. repeat split; assumption.
Qed.

(** C8, as amended: in exact arithmetic, in every run of the game over
    agents constructed with
    non-negative capability, need and selfishness on a pool with positive
    total resources, each agent's payoff starts at 0 and, round after
    round, each reward (value share times total resources) is
    non-negative, the payoff of a rewarded agent grows by exactly its
    reward and no other payoff changes: no payoff ever decreases. *)
Theorem payoff_non_decreasing (agents : list ref) (h : heap)
  (pool : ResourcePool) :
  0 < total_resources pool ->
  (forall a, In a agents -> constructed (h a)) ->
  (forall a, In a agents -> payoff (h a) = 0) /\
  forall R,
    exists g r,
      resource_allocation_game agents h pool R = Ok g /\
      game_round agents g = Ok r /\
      resource_allocation_game agents h pool (S R) = Ok (after r) /\
      (forall a sv, In (a, sv) (shapley_values r) ->
         0 <= sv * total_resources pool /\
         payoff (agents_heap (after r) a)
         = payoff (agents_heap g a) + sv * total_resources pool) /\
      (forall a, ~ In a agents ->
         payoff (agents_heap (after r) a) = payoff (agents_heap g a)) /\
      (forall a, payoff (agents_heap g a) <= payoff (agents_heap (after r) a)).
Proof.
  intros T New. split.
  - intros a Ia. destruct (New a Ia) as (n & c & r & s & -> & _).
    reflexivity.
  - intros R. apply payoff_grows_by_rewards; [exact T|].
    intros a Ia. now apply constructed_agent_ok, New.
Qed.

Lemma main_agents_constructed (a : ref) :
  In a main_agents -> constructed (main_heap a).
Proof.
  intros [<-|[<-|[<-|[]]]]; unfold constructed; simpl;
    eexists _, _, _, _; (split; [reflexivity|]);
    repeat split; discriminate.
Qed.

Lemma payoff_non_decreasing_witness :
  exists g r,
    resource_allocation_game main_agents main_heap main_pool 1 = Ok g /\
    game_round main_agents g = Ok r /\
    forall a, payoff (agents_heap g a) <= payoff (agents_heap (after r) a).
Proof.
  destruct (payoff_non_decreasing main_agents main_heap main_pool)
    as [_ Run].
  - reflexivity.
  - exact main_agents_constructed.
  - destruct (Run 1%nat) as (g & r & EG & ER & _ & _ & _ & Mono).
    exists g, r. split; [exact EG|]. split; [exact ER|exact Mono].
Defined.

Section Binary64Payoff.
Import PrimFloat.
#[local] Set Warnings "-inexact-float".

(** C8, as first stated, fails on binary64 numbers: one agent built with
    capability 1e308, need 10 and selfishness 0.5 on a pool of 30 bids
    and receives 15; its contribution [1e308 * 15] overflows to infinity,
    its value share [inf / inf] is NaN, and so are its reward and, from a
    payoff of 0, its payoff after the first round: the reward is not
    non-negative and the payoff is not at or above the one before. *)
Lemma payoff_non_decreasing_counterexample :
  let agents := [0%nat] in
  let h : Binary64.heap :=
    fun _ => Binary64.Agent_init "A" 1e308%float 10%float 0.5%float in
  let pool := Binary64.ResourcePool_init 30%float in
  PrimFloat.ltb 0 (Binary64.total_resources pool) = true /\
  PrimFloat.leb 0 (Binary64.capability (h 0%nat)) = true /\
  PrimFloat.leb 0 (Binary64.resource_need (h 0%nat)) = true /\
  PrimFloat.leb 0 (Binary64.selfishness (h 0%nat)) = true /\
  PrimFloat.eqb (Binary64.payoff (h 0%nat)) 0 = true /\
  exists g0 r sv,
    Binary64.resource_allocation_game agents h pool 0 = Ok g0 /\
    Binary64.game_round agents g0 = Ok r /\
    Binary64.resource_allocation_game agents h pool 1
    = Ok (Binary64.after r) /\
    Binary64.allocation r = [(0%nat, 15%float)] /\
    Binary64.shapley_values r = [(0%nat, sv)] /\
    PrimFloat.is_nan sv = true /\
    PrimFloat.leb 0
      (PrimFloat.mul sv (Binary64.total_resources pool)) = false /\
    PrimFloat.is_nan
      (Binary64.payoff (Binary64.agents_heap (Binary64.after r) 0%nat))
    = true /\
    PrimFloat.leb
      (Binary64.payoff (Binary64.agents_heap g0 0%nat))
      (Binary64.payoff (Binary64.agents_heap (Binary64.after r) 0%nat))
    = false.
Proof.
  intros agents h pool.
  repeat (split; [reflexivity|]).
  eexists _, _, _.
  split; [reflexivity|]. split; [reflexivity|]. split; [reflexivity|].
  split; [reflexivity|]. split; [reflexivity|].
  repeat split; reflexivity.
Qed.

End Binary64Payoff.

(** ** Histories *)

Lemma empty_history_In (agents : list ref) (h : heap) (n : string)
  (l : list Q) :
  In (n, l) (empty_history agents h) -> l = [].
Proof.
  intros I. apply dict_of_list_In in I.
  destruct I as (x & _ & _ & E). now symmetry.
Qed.

Lemma empty_history_keys (agents : list ref) (h : heap) (n : string) :
  In n (keys (empty_history agents h)) <->
  exists a, In a agents /\ name (h a) = n.
Proof.
  unfold empty_history. rewrite dict_of_list_keys, in_map_iff.
  split; intros (a & X & Y); exists a; now split.
Qed.

(** C9, as amended: when distinct listed agents bear distinct names, the
    game run for [R] rounds returns two histories whose keys are the
    agents' names and in which every listed agent's name holds exactly
    [R] values; the next round appends, to each, the agent's payoff after
    that round and its allocation of that round.  Whatever the names,
    zero rounds return at once: every sequence is empty, no method has
    been called, agents and pool are untouched. *)
Theorem histories_one_value_per_round (agents : list ref) (h : heap)
  (pool : ResourcePool) (R : nat) :
  (exists g0,
     resource_allocation_game agents h pool 0 = Ok g0 /\
     calls g0 = [] /\ agents_heap g0 = h /\ resource_pool g0 = pool /\
     forall n l,
       In (n, l) (payoff_history g0) \/ In (n, l) (allocation_history g0) ->
       l = []) /\
  (unique_names agents h ->
   exists g r,
    resource_allocation_game agents h pool R = Ok g /\
    game_round agents g = Ok r /\
    resource_allocation_game agents h pool (S R) = Ok (after r) /\
    (forall n, In n (keys (payoff_history g)) <->
               exists a, In a agents /\ name (h a) = n) /\
    (forall n, In n (keys (allocation_history g)) <->
               exists a, In a agents /\ name (h a) = n) /\
    forall a, In a agents ->
      exists ps als x,
        dict_get (name (h a)) (payoff_history g) = Ok ps /\
        dict_get (name (h a)) (allocation_history g) = Ok als /\
        List.length ps = R /\ List.length als = R /\
        dict_get a (allocation r) = Ok x /\
        dict_get (name (h a)) (payoff_history (after r))
        = Ok (ps ++ [payoff (agents_heap (after r) a)]) /\
        dict_get (name (h a)) (allocation_history (after r))
        = Ok (als ++ [x])).
Proof.
  split.
  - eexists. split; [reflexivity|]. simpl.
    repeat split. intros n l [I|I]; now apply empty_history_In in I.
  - intros U. unfold resource_allocation_game.
    set (g0 := mkGame h pool (empty_history agents h)
                 (empty_history agents h) []).
    destruct (game_rounds_returns agents R g0
                (empty_history_ready agents h pool []))
      as (g & EG & HR & _ & Prof & _ & Kp & Ka & Hist).
    destruct (game_round_sound agents g HR) as (r & ER & Snd).
    exists g, r. split; [exact EG|]. split; [exact ER|].
    split; [rewrite game_rounds_snoc, EG; cbn [bind]; now rewrite ER|].
    split; [intros n; rewrite Kp; apply empty_history_keys|].
    split; [intros n; rewrite Ka; apply empty_history_keys|].
    intros a Ia.
    destruct (Hist U a [] [] Ia (empty_history_get agents h a Ia)
                (empty_history_get agents h a Ia))
      as (ps & als & Gp & Ga & Lp & La).
    simpl in Gp, Ga.
    assert (Nm : forall b, name (agents_heap g b) = name (h b))
      by (intros b; apply Prof).
    assert (Ug : unique_names agents (agents_heap g)).
    { intros b c Ib Ic. rewrite !Nm. now apply U. }
    destruct Snd as (_ & _ & _ & _ & _ & _ & _ & _ & _ & _ & _ & _ & _ & _
                     & _ & _ & Step).
    cbv zeta in Step. rewrite <- Nm in Gp, Ga.
    destruct (Step Ug a ps als Ia Gp Ga) as (x & Gx & Gp' & Ga').
    rewrite Nm in Gp, Ga, Gp', Ga'.
    exists ps, als, x. now repeat split.
Qed.

Lemma main_names_unique : unique_names main_agents main_heap.
Proof.
  intros a b [<-|[<-|[<-|[]]]] [<-|[<-|[<-|[]]]]; simpl;
    intros E; try reflexivity; discriminate E.
Qed.

Lemma histories_one_value_per_round_witness :
  exists g,
    resource_allocation_game main_agents main_heap main_pool 2 = Ok g /\
    exists ps,
      dict_get "Agent B"%string (payoff_history g) = Ok ps /\
      List.length ps = 2%nat.
Proof.
  destruct (histories_one_value_per_round main_agents main_heap main_pool 2)
    as (_ & Run).
  destruct (Run main_names_unique) as (g & r & EG & _ & _ & _ & _ & Seq).
  exists g. split; [exact EG|].
  destruct (Seq 1%nat) as (ps & als & x & Gp & _ & Lp & _).
  - simpl. tauto.
  - exists ps. split; [exact Gp|exact Lp].
Defined.

(** C9, as first stated, fails: two agents that share a name share one
    sequence in each history, which receives two values per round. *)
Lemma histories_one_value_per_round_counterexample :
  let same_name : heap := fun _ => Agent_init "A" 1 1 0 in
  exists g ps als,
    resource_allocation_game [0%nat; 1%nat] same_name (ResourcePool_init 30) 1
    = Ok g /\
    dict_get "A"%string (payoff_history g) = Ok ps /\
    dict_get "A"%string (allocation_history g) = Ok als /\
    List.length ps = 2%nat /\ List.length als = 2%nat /\
    List.length ps <> 1%nat.
Proof.
  intros same_name.
  eexists _, _, _. split; [cbv; reflexivity|].
  split; [reflexivity|]. split; [reflexivity|].
  split; [reflexivity|]. split; [reflexivity|discriminate].
Qed.

(** * Further properties of the code *)

(** ** More on ResourcePool.allocate *)

Lemma truediv_raises (x y : Q) :
  y == 0 -> truediv x y = Raise ZeroDivisionError.
Proof.
  intros Z. unfold truediv. apply Qeq_bool_iff in Z. now rewrite Z.
Qed.

Lemma allocate_outcome (self : ResourcePool) (bids : dict ref Q) :
  (exists allocation pool', allocate self bids = Ok (allocation, pool')) /\
  ~ (remaining_resources self < pysum (values bids) /\
     pysum (values bids) == 0 /\ bids <> []) \/
  allocate self bids = Raise ZeroDivisionError /\
  remaining_resources self < pysum (values bids) /\
  pysum (values bids) == 0 /\ bids <> [].
Proof.
  destruct (Qlt_le_dec (remaining_resources self) (pysum (values bids)))
    as [L|L].
  - destruct bids as [|[a b] bids].
    + left. split; [|intros (_ & _ & N); now apply N].
      unfold allocate. apply Qle_bool_gt in L. rewrite L. simpl.
      now eexists _, _.
    + destruct (Qeq_dec (pysum (values ((a, b) :: bids))) 0) as [Z|NZ].
      * right. split; [|split; [exact L|split; [exact Z|discriminate]]].
        unfold allocate. apply Qle_bool_gt in L. rewrite L.
        cbn [dict_map_items]. now rewrite (truediv_raises _ _ Z).
      * left. split; [|intros (_ & Z & _); now apply NZ].
        destruct (allocate_shortfall self _ L NZ) as [E _].
        eexists _, _. exact E.
  - left. split; [|intros (L' & _); exact (Qlt_not_le _ _ L' L)].
    rewrite (allocate_enough self bids L). now eexists _, _.
Qed.

(** X1: in exact arithmetic, [allocate] fails exactly when the bid map is
    not empty, its values sum to zero and that sum exceeds the remaining
    resources (which are then negative): its division then raises
    [ZeroDivisionError]; in every other case it returns. *)
Theorem allocate_raises_iff (self : ResourcePool) (bids : dict ref Q) :
  (allocate self bids = Raise ZeroDivisionError <->
   remaining_resources self < pysum (values bids) /\
   pysum (values bids) == 0 /\ bids <> []) /\
  allocate self bids <> Raise KeyError /\
  ((exists allocation pool', allocate self bids = Ok (allocation, pool')) <->
   ~ (remaining_resources self < pysum (values bids) /\
      pysum (values bids) == 0 /\ bids <> [])).
Proof.
  destruct (allocate_outcome self bids)
    as [[(allocation & pool' & E) N]|(E & C)].
  - split; [|split].
    + split; [rewrite E; discriminate|intros C; contradiction].
    + rewrite E. discriminate.
    + split; [intros _; exact N|intros _; now exists allocation, pool'].
  - split; [|split].
    + split; [intros _; exact C|intros _; exact E].
    + rewrite E. discriminate.
    + split; [intros (allocation & pool' & E'); congruence|].
      intros N. contradiction.
Qed.

Lemma Forall2_map_same {A B : Type} (R : A -> B -> Prop) (f : A -> B)
  (l : list A) :
  (forall x, In x l -> R x (f x)) -> Forall2 R l (map f l).
Proof.
  induction l as [|x l IH]; intros H; simpl; constructor.
  - apply H. now left.
  - apply IH. intros; apply H; now right.
Qed.

(** X2: with non-negative bids and non-negative remaining resources,
    [allocate] gives every agent, in the order of the bid map, one and
    the same fraction [c] of its bid, with [0 <= c <= 1], and [c] is 1
    when the bids fit the supply: no agent gets more than it bid and a
    larger bid never gets less. *)
Theorem allocate_uniform_fraction (self : ResourcePool) (bids : dict ref Q) :
  (forall a b, In (a, b) bids -> 0 <= b) ->
  0 <= remaining_resources self ->
  exists allocation pool' c,
    allocate self bids = Ok (allocation, pool') /\
    0 <= c /\ c <= 1 /\
    (pysum (values bids) <= remaining_resources self -> c == 1) /\
    Forall2 (fun kb ka => fst ka = fst kb /\ snd ka == c * snd kb /\
                          0 <= snd ka /\ snd ka <= snd kb)
            bids allocation.
Proof.
  intros N R.
  destruct (Qlt_le_dec (remaining_resources self) (pysum (values bids)))
    as [L|L].
  - assert (P : 0 < pysum (values bids)) by lra.
    assert (NZ : ~ pysum (values bids) == 0) by lra.
    destruct (allocate_shortfall self bids L NZ) as [E _].
    set (S := pysum (values bids)) in *.
    set (rem := remaining_resources self) in *.
    assert (C0 : 0 <= rem / S).
    { apply Qle_shift_div_l; [exact P|]. lra. }
    assert (C1 : rem / S <= 1).
    { apply Qle_shift_div_r; [exact P|]. lra. }
    eexists _, _, (rem / S). split; [exact E|].
    split; [exact C0|]. split; [exact C1|]. split; [intros L'; lra|].
    apply Forall2_map_same. intros [a b] I. cbn [fst snd].
    assert (0 <= b) by (eapply N, I).
    assert (Eq : b / S * rem == rem / S * b) by (field; exact NZ).
    split; [reflexivity|]. split; [exact Eq|]. rewrite Eq.
    split; [now apply Qmult_le_0_compat|].
    assert (rem / S * b <= 1 * b) by (apply Qmult_le_compat_r; assumption).
    lra.
  - eexists _, _, 1. split; [exact (allocate_enough self bids L)|].
    split; [lra|]. split; [lra|]. split; [reflexivity|].
    rewrite <- (map_id bids) at 2.
    apply Forall2_map_same. intros [a b] I. cbn [fst snd].
    assert (0 <= b) by (eapply N, I).
    split; [reflexivity|]. split; [ring|]. split; lra.
Qed.

Lemma allocate_uniform_fraction_witness :
  exists allocation pool' c,
    allocate (mkPool 30 30) [(0%nat, 30); (1%nat, 10)]
    = Ok (allocation, pool') /\ c <= 1 /\
    Forall2 (fun kb ka => fst ka = fst kb /\ snd ka == c * snd kb /\
                          0 <= snd ka /\ snd ka <= snd kb)
            [(0%nat, 30); (1%nat, 10)] allocation.
Proof.
  destruct (allocate_uniform_fraction (mkPool 30 30)
              [(0%nat, 30); (1%nat, 10)])
    as (allocation & pool' & c & E & _ & C1 & _ & F).
  - simpl. intros a b [H|[H|[]]]; inversion H; subst; discriminate.
  - simpl. discriminate.
  - exists allocation, pool', c. split; [exact E|]. split; [exact C1|exact F].
Defined.

(** X3: from non-negative remaining resources, [allocate] hands out the
    smaller of the total demand and the supply, and leaves in the pool
    the larger of their difference and zero; the total is not touched. *)
Theorem allocate_hands_out_min (self : ResourcePool) (bids : dict ref Q) :
  0 <= remaining_resources self ->
  exists allocation pool',
    allocate self bids = Ok (allocation, pool') /\
    pysum (values allocation)
    == Qmin (pysum (values bids)) (remaining_resources self) /\
    remaining_resources pool'
    == Qmax (remaining_resources self - pysum (values bids)) 0 /\
    total_resources pool' = total_resources self.
Proof.
  intros R.
  destruct (Qlt_le_dec (remaining_resources self) (pysum (values bids)))
    as [L|L].
  - assert (NZ : ~ pysum (values bids) == 0) by lra.
    destruct (allocate_shortfall self bids L NZ) as [E S].
    eexists _, _. split; [exact E|]. cbn [remaining_resources total_resources].
    split; [|split; [|reflexivity]].
    + rewrite S. symmetry. apply Q.min_r. lra.
    + rewrite S. rewrite Q.max_r by lra. ring.
  - eexists _, _. split; [exact (allocate_enough self bids L)|].
    cbn [remaining_resources total_resources].
    split; [|split; [|reflexivity]].
    + symmetry. now apply Q.min_l.
    + rewrite Q.max_l by lra. reflexivity.
Qed.

Lemma allocate_hands_out_min_witness :
  exists allocation pool',
    allocate (mkPool 30 30) [(0%nat, 30); (1%nat, 10)]
    = Ok (allocation, pool') /\
    remaining_resources pool' == Qmax (30 - pysum [30; 10]) 0.
Proof.
  destruct (allocate_hands_out_min (mkPool 30 30) [(0%nat, 30); (1%nat, 10)])
    as (allocation & pool' & E & _ & M & _).
  - simpl. discriminate.
  - exists allocation, pool'. split; [exact E|exact M].
Defined.

(** ** More on compute_shapley_value *)

Lemma Forall2_map_both {A B C : Type} (R : B -> C -> Prop)
  (f : A -> B) (g : A -> C) (l : list A) :
  (forall x, In x l -> R (f x) (g x)) -> Forall2 R (map f l) (map g l).
Proof.
  induction l as [|x l IH]; intros H; simpl; constructor.
  - apply H. now left.
  - apply IH. intros; apply H; now right.
Qed.

(** X4: in exact arithmetic, [compute_shapley_value] returns for every
    contribution map and every total, related or not: its guard leaves
    no division by zero.
    The shares keep the keys in order; a total that is zero or negative
    gives the share 0 to every agent, and a positive total gives shares
    that sum to the sum of the contributions divided by that total. *)
Theorem compute_shapley_value_never_raises
  (contributions : dict ref Q) (total_contribution : Q) :
  exists shares,
    compute_shapley_value contributions total_contribution = Ok shares /\
    keys shares = keys contributions /\
    (total_contribution <= 0 -> forall a s, In (a, s) shares -> s = 0) /\
    (0 < total_contribution ->
       pysum (values shares)
       == pysum (values contributions) / total_contribution).
Proof.
  destruct (compute_shapley_value_returns contributions total_contribution)
    as (shares & E & K & Pos & Zero).
  exists shares. split; [exact E|]. split; [exact K|]. split.
  - intros Z a s I. rewrite Zero in I by (intros P; lra).
    apply in_map_iff in I. destruct I as (kv & Eq & _). now inversion Eq.
  - intros P. rewrite (Pos P).
    rewrite (values_map_values (fun c => c / total_contribution)).
    rewrite !pysum_Qsum.
    rewrite (Qsum_map_scale _ (/ total_contribution));
      [reflexivity|intros x; reflexivity].
Qed.

(** X5: the value shares depend on proportions only: multiplying every
    contribution and the total by the same positive factor gives, agent
    by agent, equal shares. *)
Theorem compute_shapley_value_scale_invariant
  (contributions : dict ref Q) (total_contribution k : Q) :
  0 < k ->
  exists shares shares',
    compute_shapley_value contributions total_contribution = Ok shares /\
    compute_shapley_value
      (map (fun kv => (fst kv, k * snd kv)) contributions)
      (k * total_contribution)
    = Ok shares' /\
    Forall2 (fun s s' => fst s' = fst s /\ snd s' == snd s) shares shares'.
Proof.
  intros K.
  destruct (Qlt_le_dec 0 total_contribution) as [P|Z].
  - assert (P' : 0 < k * total_contribution).
    { rewrite <- (Qmult_0_r k). apply Qmult_lt_l; assumption. }
    eexists _, _.
    split; [exact (compute_shapley_value_positive _ _ P)|].
    split; [exact (compute_shapley_value_positive _ _ P')|].
    rewrite map_map. apply Forall2_map_both. intros [a c] _. cbn [fst snd].
    split; [reflexivity|]. field. split; lra.
  - assert (N : ~ 0 < total_contribution) by (intros P; lra).
    assert (N' : ~ 0 < k * total_contribution).
    { intros P. assert (k * total_contribution <= k * 0)
        by (apply Qmult_le_l; assumption).
      lra. }
    eexists _, _.
    split; [exact (compute_shapley_value_guarded _ _ N)|].
    split; [exact (compute_shapley_value_guarded _ _ N')|].
    rewrite map_map. apply Forall2_map_both. intros [a c] _. cbn [fst snd].
    split; reflexivity.
Qed.

Lemma compute_shapley_value_scale_invariant_witness :
  exists shares shares',
    compute_shapley_value [(0%nat, 1); (1%nat, 3)] 4 = Ok shares /\
    compute_shapley_value [(0%nat, 2 * 1); (1%nat, 2 * 3)] (2 * 4)
    = Ok shares' /\
    Forall2 (fun s s' => fst s' = fst s /\ snd s' == snd s) shares shares'.
Proof.
  apply (compute_shapley_value_scale_invariant [(0%nat, 1); (1%nat, 3)] 4 2).
  reflexivity.
Defined.

(** ** Bidding after a strategy update *)

Lemma demand_monotone (need selfish s1 s2 : Q) :
  0 <= need -> 0 <= selfish -> s1 <= s2 ->
  need * (1 + selfish * s1) <= need * (1 + selfish * s2).
Proof.
  intros N S L.
  assert (selfish * s1 <= selfish * s2).
  { rewrite !(Qmult_comm selfish). now apply Qmult_le_compat_r. }
  rewrite !(Qmult_comm need). apply Qmult_le_compat_r; [lra|exact N].
Qed.

Lemma pymin_monotone (x y z : Q) : x <= y -> pymin x z <= pymin y z.
Proof. rewrite !pymin_Qmin. apply Q.min_le_compat_r. Qed.

(** X6: in exact arithmetic, for an agent with non-negative need,
    selfishness and strategy, a positive reward never lowers the next bid
    and a zero or negative reward never raises it, whatever the resources
    on offer. *)
Theorem bid_follows_reward (self : Agent) (reward remaining : Q) :
  0 <= resource_need self ->
  0 <= selfishness self ->
  0 <= strategy self ->
  (0 < reward ->
     bid self remaining <= bid (update_strategy self reward) remaining) /\
  (reward <= 0 ->
     bid (update_strategy self reward) remaining <= bid self remaining).
Proof.
  intros N S T. split; intros R.
  - rewrite (update_strategy_positive_reward self reward R).
    unfold bid. cbn [set_strategy resource_need selfishness strategy].
    apply pymin_monotone, demand_monotone; [assumption|assumption|lra].
  - rewrite (update_strategy_other_reward self reward R).
    unfold bid. cbn [set_strategy resource_need selfishness strategy].
    apply pymin_monotone, demand_monotone; [assumption|assumption|lra].
Qed.

Lemma bid_follows_reward_witness :
  bid (Agent_init "Agent A" 5 10 (5 # 10)) 30
  <= bid (update_strategy (Agent_init "Agent A" 5 10 (5 # 10)) 1) 30.
Proof.
  destruct (bid_follows_reward (Agent_init "Agent A" 5 10 (5 # 10)) 1 30)
    as [Up _].
  - simpl. discriminate.
  - simpl. discriminate.
  - simpl. discriminate.
  - apply Up. reflexivity.
Defined.

Lemma positive_rewards_le (rewards : list Q) :
  (positive_rewards rewards <= List.length rewards)%nat.
Proof. unfold positive_rewards. apply filter_length_le. Qed.

(** X7: after any sequence of [update_strategy] calls the strategy is the
    initial one times [(11/10)^p * (9/10)^(n - p)], where [n] is the
    number of calls and [p] the number of positive rewards among them:
    the order of the rewards does not matter. *)
Theorem update_strategy_closed_form (rewards : list Q) (self : Agent) :
  strategy (fold_left update_strategy rewards self)
  == strategy self
     * Qpow (11 # 10) (positive_rewards rewards)
     * Qpow (9 # 10) (List.length rewards - positive_rewards rewards).
Proof.
  revert self. induction rewards as [|r rewards IH]; intros self.
  - simpl. ring.
  - cbn [fold_left]. rewrite IH.
    pose proof (positive_rewards_le rewards) as LE.
    unfold positive_rewards in *. cbn [filter List.length].
    unfold update_strategy. destruct (Qltb 0 r).
    + cbn [List.length Nat.sub set_strategy strategy Qpow]. ring.
    + rewrite Nat.sub_succ_l by exact LE.
      cbn [set_strategy strategy Qpow]. ring.
Qed.

(** ** The round, record by record *)

Lemma contribution_loop_exact (l : list (ref * Q)) (h : heap)
  (c : dict ref Q) :
  NoDup (keys l) ->
  let st := fold_left contribution_step l (h, c) in
  (forall a x, In (a, x) l ->
     fst st a
     = set_resources_allocated (h a) (resources_allocated (h a) + x)) /\
  (forall a, ~ In a (keys l) -> fst st a = h a).
Proof.
  revert h c. induction l as [|[a y] l IH]; intros h c ND; simpl.
  - split; [intros a x []|reflexivity].
  - inversion ND as [|? ? Fresh ND']; subst.
    set (h1 := heap_set h a
                 (set_resources_allocated (h a) (resources_allocated (h a) + y))).
    destruct (IH h1 (dict_set a (capability (h1 a) * y) c) ND')
      as [In_l Out_l].
    split.
    + intros b x [E|I].
      * inversion E; subst. rewrite (Out_l b Fresh).
        unfold h1. now rewrite heap_set_same.
      * assert (b <> a) by (intros ->; apply Fresh; eapply In_keys, I).
        rewrite (In_l b x I). unfold h1.
        now rewrite heap_set_other by assumption.
    + intros b N.
      assert (b <> a) by (intros ->; apply N; now left).
      rewrite Out_l by (intros I; apply N; now right).
      unfold h1. now rewrite heap_set_other by assumption.
Qed.

Lemma reward_loop_exact_step (allocation : dict ref Q) (total : Q)
  (l : list (ref * Q)) (h1 : heap) (cs0 : list call) :
  NoDup (keys l) ->
  reward_step_preserves allocation total l h1
    (reward_loop_exact total h1 cs0).
Proof.
  intros ND done a sv rest h ph ah cs lp la x E SP Gp Ga Gx
    (Paid & Rest & Log).
  assert (Fresh : ~ In a (keys done)).
  { rewrite E, keys_app in ND. simpl in ND.
    apply NoDup_remove_2 in ND. intros I. apply ND.
    apply in_app_iff. now left. }
  unfold reward_loop_exact. split; [|split].
  - intros b sb I. apply in_app_iff in I. destruct I as [I|[I|[]]].
    + assert (b <> a) by (intros ->; apply Fresh; eapply In_keys, I).
      rewrite pay_reward_other by assumption. now apply Paid.
    + inversion I; subst. rewrite pay_reward_self.
      now rewrite (Rest b Fresh).
  - intros b N. rewrite keys_app, in_app_iff in N. simpl in N.
    assert (b <> a) by (intros ->; apply N; right; now left).
    rewrite pay_reward_other by assumption. apply Rest. tauto.
  - rewrite Log, map_app, app_assoc. reflexivity.
Qed.

(** A ready round returns a sound round whose effect on every agent
    record and on the call log is known exactly. *)
Lemma game_round_exact (agents : list ref) (g : Game) :
  history_ready agents g ->
  exists r,
    game_round agents g = Ok r /\
    round_sound agents g r /\
    NoDup (keys (allocation r)) /\
    (forall a, In a (keys (allocation r)) <-> In a agents) /\
    (forall a x sv,
       In (a, x) (allocation r) -> In (a, sv) (shapley_values r) ->
       agents_heap (after r) a
       = after_round (agents_heap g a) x
           (sv * total_resources (resource_pool g))) /\
    (forall a, ~ In a agents -> agents_heap (after r) a = agents_heap g a) /\
    calls (after r)
    = calls g ++ round_calls agents r (total_resources (resource_pool g)).
Proof.
  intros HR.
  destruct (game_round_sound agents g HR) as (r & ER & Snd).
  destruct (game_round_run agents g HR)
    as (alloc & shap & EA & KA & FA & ES & KS & Run).
  set (total := total_resources (resource_pool g)) in *.
  set (h := agents_heap g) in *.
  set (h1 := fst (round_contributions alloc h)) in *.
  assert (NDa : NoDup (keys alloc)).
  { rewrite KA. apply dict_of_list_NoDup. }
  assert (KIa : forall a, In a (keys alloc) <-> In a agents).
  { intros a. rewrite KA. apply round_bids_keys. }
  assert (NDs : NoDup (keys shap))
    by (rewrite KS; apply round_contributions_NoDup).
  assert (KIs : forall a, In a (keys shap) <-> In a agents).
  { intros a. rewrite KS, round_contributions_keys. apply KIa. }
  destruct (contribution_loop_exact alloc h [] NDa) as [In_c Out_c].
  change (fst (fold_left contribution_step alloc (h, []))) with h1
    in In_c, Out_c.
  destruct (Run (reward_loop_exact total h1
                   ((calls g ++ [CallReplenish])
                      ++ map (fun a => CallBid a total) agents
                      ++ [CallAllocate (round_bids agents h total)])))
    as (h2 & ph & ah & cs & EG & (Paid & Rest & Log) & _).
  { now apply reward_loop_exact_step. }
  { unfold reward_loop_exact. split; [intros a sv []|].
    split; [reflexivity|]. simpl. now rewrite app_nil_r. }
  rewrite ER in EG. inversion EG; subst r. clear EG.
  eexists. split; [exact ER|]. split; [exact Snd|].
  cbn [bids allocation contributions total_contribution shapley_values
       after agents_heap calls].
  split; [exact NDa|]. split; [exact KIa|]. split; [|split].
  - intros a x sv Ia Is. rewrite (Paid a sv Is), (In_c a x Ia).
    reflexivity.
  - intros a N. rewrite Rest by (intros I; apply N; now apply KIs).
    apply Out_c. intros I. apply N. now apply KIa.
  - rewrite Log. unfold round_calls. cbn [bids shapley_values].
    rewrite <- !app_assoc. reflexivity.
Qed.

(** ** Invariants of the loop over rounds *)

Section GameInvariant.
Variables (agents : list ref) (h : heap) (pool : ResourcePool).
Variable Inv : nat -> Game -> Prop.

Hypothesis Inv_start :
  Inv 0 (mkGame h pool (empty_history agents h) (empty_history agents h) []).

Hypothesis Inv_round : forall R g r,
  resource_allocation_game agents h pool R = Ok g ->
  history_ready agents g ->
  total_resources (resource_pool g) = total_resources pool ->
  (forall a, same_profile (agents_heap g a) (h a)) ->
  (forall a, 0 < strategy (h a) -> 0 < strategy (agents_heap g a)) ->
  game_round agents g = Ok r ->
  Inv R g ->
  Inv (S R) (after r).

Lemma game_invariant (R : nat) :
  exists g,
    resource_allocation_game agents h pool R = Ok g /\
    history_ready agents g /\
    total_resources (resource_pool g) = total_resources pool /\
    (forall a, same_profile (agents_heap g a) (h a)) /\
    (forall a, 0 < strategy (h a) -> 0 < strategy (agents_heap g a)) /\
    Inv R g.
Proof.
  induction R as [|R IH].
  - eexists. split; [reflexivity|].
    split; [apply empty_history_ready|]. split; [reflexivity|].
    split; [intros a; now repeat split|]. split; [auto|exact Inv_start].
  - destruct IH as (g & EG & HR & Tot & Prof & Str & I).
    destruct (game_round_sound agents g HR) as (r & ER & Snd).
    destruct Snd as (_ & _ & Tot' & _ & _ & _ & _ & _ & _ & _ & _ & Prof'
                     & Str' & HR' & _).
    cbv zeta in *.
    exists (after r). split; [|split; [exact HR'|split; [congruence|]]].
    + unfold resource_allocation_game in *.
      rewrite game_rounds_snoc, EG. cbn [bind]. now rewrite ER.
    + split; [|split].
      * intros a. destruct (Prof a) as (E1 & E2 & E3 & E4).
        destruct (Prof' a) as (F1 & F2 & F3 & F4).
        unfold same_profile. repeat split; congruence.
      * intros a Pa. now apply Str', Str.
      * now apply (Inv_round R g r).
Qed.
End GameInvariant.

(** ** What a round does to the agents *)

Lemma after_round_fields (a : Agent) (x reward : Q) :
  same_profile (after_round a x reward) a /\
  resources_allocated (after_round a x reward) = resources_allocated a + x /\
  payoff (after_round a x reward) = payoff a + reward /\
  (0 < reward ->
     strategy (after_round a x reward) = strategy a * (11 # 10)) /\
  (reward <= 0 ->
     strategy (after_round a x reward) = strategy a * (9 # 10)).
Proof.
  unfold after_round, same_profile. split; [|split; [|split; [|split]]].
  - unfold update_strategy. destruct (Qltb 0 reward); now repeat split.
  - unfold update_strategy. now destruct (Qltb 0 reward).
  - unfold update_strategy. now destruct (Qltb 0 reward).
  - intros P. now rewrite update_strategy_positive_reward.
  - intros P. now rewrite update_strategy_other_reward.
Qed.

Lemma keys_In_entry {K V : Type} (k : K) (d : dict K V) :
  In k (keys d) -> exists v, In (k, v) d.
Proof.
  intros I. apply in_map_iff in I. destruct I as ([k' v] & E & I).
  simpl in E. subst. now exists v.
Qed.

Lemma dict_get_of_In {K V : Type} `{Hashable K} (k : K) (v : V)
  (d : dict K V) :
  NoDup (keys d) -> In (k, v) d -> dict_get k d = Ok v.
Proof.
  induction d as [|[k' v'] d IH]; intros ND I; [contradiction|].
  simpl in *. inversion ND as [|? ? Fresh ND']; subst.
  destruct I as [E|I].
  - inversion E; subst. now rewrite key_eqb_refl.
  - destruct (key_eqb_spec k k') as [->|N].
    + exfalso. apply Fresh. eapply In_keys, I.
    + now apply IH.
Qed.

(** The game after [R] rounds, ready for the round that follows. *)
Lemma game_ready (agents : list ref) (h : heap) (pool : ResourcePool)
  (R : nat) :
  exists g,
    resource_allocation_game agents h pool R = Ok g /\
    history_ready agents g /\
    total_resources (resource_pool g) = total_resources pool /\
    (forall a, same_profile (agents_heap g a) (h a)).
Proof.
  destruct (game_invariant agents h pool (fun _ _ => True) I
              (fun _ _ _ _ _ _ _ _ _ _ => I) R)
    as (g & EG & HR & Tot & Prof & _).
  now exists g.
Qed.

Lemma game_next (agents : list ref) (h : heap) (pool : ResourcePool)
  (R : nat) (g : Game) (r : Round) :
  resource_allocation_game agents h pool R = Ok g ->
  game_round agents g = Ok r ->
  resource_allocation_game agents h pool (S R) = Ok (after r).
Proof.
  unfold resource_allocation_game. intros EG ER.
  rewrite game_rounds_snoc, EG. cbn [bind]. now rewrite ER.
Qed.

(** X8: in exact arithmetic, every round of every run returns, and its
    whole effect on the agents is this: an agent of the list has its allocation of the round
    added to [resources_allocated], its reward (value share times the
    pool's total) added to [payoff] and its strategy updated with that
    reward, in this order, name and parameters being kept; an agent
    outside the list is left exactly as it was. *)
Theorem game_round_effect (agents : list ref) (h : heap)
  (pool : ResourcePool) (R : nat) :
  exists g r,
    resource_allocation_game agents h pool R = Ok g /\
    game_round agents g = Ok r /\
    resource_allocation_game agents h pool (S R) = Ok (after r) /\
    (forall a, In a agents ->
       exists x sv,
         dict_get a (allocation r) = Ok x /\
         dict_get a (shapley_values r) = Ok sv /\
         agents_heap (after r) a
         = after_round (agents_heap g a) x (sv * total_resources pool)) /\
    (forall a, ~ In a agents -> agents_heap (after r) a = agents_heap g a).
Proof.
  destruct (game_ready agents h pool R) as (g & EG & HR & Tot & _).
  destruct (game_round_exact agents g HR)
    as (r & ER & Snd & NDa & KIa & Eff & Out & _).
  exists g, r. split; [exact EG|]. split; [exact ER|].
  split; [exact (game_next _ _ _ _ _ _ EG ER)|]. split; [|exact Out].
  intros a Ia.
  destruct Snd as (_ & _ & _ & _ & _ & _ & _ & NDs & KIs & _).
  destruct (keys_In_entry a (allocation r)) as [x Ix]; [now apply KIa|].
  destruct (keys_In_entry a (shapley_values r)) as [sv Is]; [now apply KIs|].
  exists x, sv. rewrite <- Tot.
  split; [now apply dict_get_of_In|].
  split; [now apply dict_get_of_In|now apply Eff].
Qed.


(** X10: in exact arithmetic, every run of the game returns, for any
    agents, any pool and any number of rounds: no division meets a zero
    divisor and no lookup misses its key.  It keeps the name,
    capability, need and selfishness of every agent and the pool's
    total, and leaves every agent outside the list exactly as it was. *)
Theorem game_returns_and_preserves (agents : list ref) (h : heap)
  (pool : ResourcePool) (R : nat) :
  exists g,
    resource_allocation_game agents h pool R = Ok g /\
    total_resources (resource_pool g) = total_resources pool /\
    (forall a, same_profile (agents_heap g a) (h a)) /\
    (forall a, ~ In a agents -> agents_heap g a = h a).
Proof.
  destruct (game_invariant agents h pool
              (fun _ g => forall a, ~ In a agents -> agents_heap g a = h a))
    with (R := R) as (g & EG & _ & Tot & Prof & _ & Frame).
  - reflexivity.
  - intros R' g r _ HR _ _ _ ER Frame a N.
    destruct (game_round_exact agents g HR) as (r' & ER' & _ & _ & _ & _ & Out & _).
    assert (r' = r) by congruence. subst r'.
    rewrite (Out a N). now apply Frame.
  - now exists g.
Qed.

(** ** Agents and histories across rounds *)

Lemma Qsum_snoc (xs : list Q) (x : Q) : Qsum (xs ++ [x]) == Qsum xs + x.
Proof.
  induction xs as [|y xs IH]; simpl.
  - ring.
  - rewrite IH. ring.
Qed.

(** With unique names, what a round appends for a listed agent. *)
Lemma round_appends (agents : list ref) (h : heap) (g : Game) (r : Round) :
  unique_names agents h ->
  (forall a, same_profile (agents_heap g a) (h a)) ->
  history_ready agents g ->
  game_round agents g = Ok r ->
  forall a, In a agents ->
    exists lp la x sv,
      dict_get (name (h a)) (payoff_history g) = Ok lp /\
      dict_get (name (h a)) (allocation_history g) = Ok la /\
      dict_get a (allocation r) = Ok x /\
      In (a, sv) (shapley_values r) /\
      agents_heap (after r) a
      = after_round (agents_heap g a) x
          (sv * total_resources (resource_pool g)) /\
      dict_get (name (h a)) (payoff_history (after r))
      = Ok (lp ++ [payoff (agents_heap (after r) a)]) /\
      dict_get (name (h a)) (allocation_history (after r))
      = Ok (la ++ [x]).
Proof.
  intros U Prof HR ER a Ia.
  destruct (game_round_exact agents g HR)
    as (r' & ER' & Snd & _ & _ & Eff & _).
  assert (r' = r) by congruence. subst r'.
  assert (Nm : forall b, name (agents_heap g b) = name (h b))
    by (intros b; apply Prof).
  assert (Ug : unique_names agents (agents_heap g)).
  { intros b c Ib Ic. rewrite !Nm. now apply U. }
  destruct (HR a Ia) as [Kp Ka]. rewrite Nm in Kp, Ka.
  apply dict_get_In in Kp, Ka. destruct Kp as [lp Gp], Ka as [la Ga].
  destruct Snd as (_ & _ & _ & _ & _ & _ & _ & _ & KIs & _ & _ & _ & _ & _
                   & _ & _ & Step).
  cbv zeta in Step, KIs.
  destruct (keys_In_entry a (shapley_values r)) as [sv Is]; [now apply KIs|].
  rewrite <- Nm in Gp, Ga.
  destruct (Step Ug a lp la Ia Gp Ga) as (x & Gx & Gp' & Ga').
  rewrite Nm in Gp, Ga, Gp', Ga'.
  exists lp, la, x, sv. repeat (split; [assumption|]).
  split; [|now split]. apply Eff; [|exact Is]. now apply dict_get_Ok_In.
Qed.

(** X11: when distinct agents bear distinct names, after any number of
    rounds the [resources_allocated] of a listed agent is what it was at
    the start plus the sum of the agent's sequence in the allocation
    history, which holds one value per round. *)
Theorem resources_allocated_sums_history (agents : list ref) (h : heap)
  (pool : ResourcePool) (R : nat) :
  unique_names agents h ->
  exists g,
    resource_allocation_game agents h pool R = Ok g /\
    forall a, In a agents ->
      exists als,
        dict_get (name (h a)) (allocation_history g) = Ok als /\
        List.length als = R /\
        resources_allocated (agents_heap g a)
        == resources_allocated (h a) + Qsum als.
Proof.
  intros U.
  destruct (game_invariant agents h pool
              (fun R g => forall a, In a agents ->
                 exists als,
                   dict_get (name (h a)) (allocation_history g) = Ok als /\
                   List.length als = R /\
                   resources_allocated (agents_heap g a)
                   == resources_allocated (h a) + Qsum als))
    with (R := R) as (g & EG & _ & _ & _ & _ & Inv).
  - intros a Ia. exists []. cbn [allocation_history agents_heap].
    split; [now apply empty_history_get|]. split; [reflexivity|].
    simpl. ring.
  - intros R' g r _ HR _ Prof _ ER Inv a Ia.
    destruct (Inv a Ia) as (als & Ga & Len & Sum).
    destruct (round_appends agents h g r U Prof HR ER a Ia)
      as (lp & la & x & sv & _ & Ga0 & _ & _ & Eff & _ & Ga').
    assert (la = als) by congruence. subst la.
    exists (als ++ [x]). split; [exact Ga'|].
    split; [rewrite last_length; now f_equal|].
    rewrite Eff.
    destruct (after_round_fields (agents_heap g a) x
                (sv * total_resources (resource_pool g)))
      as (_ & Ra & _).
    rewrite Ra, Sum, Qsum_snoc. ring.
  - exists g. now split.
Qed.

Lemma resources_allocated_sums_history_witness :
  exists g als,
    resource_allocation_game main_agents main_heap main_pool 2 = Ok g /\
    dict_get "Agent A"%string (allocation_history g) = Ok als /\
    resources_allocated (agents_heap g 0%nat) == 0 + Qsum als.
Proof.
  destruct (resources_allocated_sums_history main_agents main_heap main_pool
              2 main_names_unique) as (g & EG & Seq).
  destruct (Seq 0%nat) as (als & Ga & _ & Sum); [simpl; tauto|].
  exists g, als. split; [exact EG|]. split; [exact Ga|exact Sum].
Defined.

Lemma StronglySorted_snoc (ps : list Q) (p : Q) :
  StronglySorted Qle ps -> Forall (fun q => q <= p) ps ->
  StronglySorted Qle (ps ++ [p]).
Proof.
  induction 1 as [|q ps SS IH Below]; intros F; simpl.
  - repeat constructor.
  - inversion F; subst. constructor; [now apply IH|].
    apply Forall_app. split; [exact Below|]. now repeat constructor.
Qed.

(** X12: in exact arithmetic, for agents constructed with non-negative
    arguments and bearing distinct names, on a pool with positive total resources, the payoff
    sequence the game records for each agent holds one value per round,
    is non-decreasing from first to last, starts at or above zero and
    never exceeds the agent's current payoff. *)
Theorem payoff_history_non_decreasing (agents : list ref) (h : heap)
  (pool : ResourcePool) (R : nat) :
  0 < total_resources pool ->
  (forall a, In a agents -> constructed (h a)) ->
  unique_names agents h ->
  exists g,
    resource_allocation_game agents h pool R = Ok g /\
    forall a, In a agents ->
      exists ps,
        dict_get (name (h a)) (payoff_history g) = Ok ps /\
        List.length ps = R /\
        StronglySorted Qle ps /\
        Forall (fun p => 0 <= p /\ p <= payoff (agents_heap g a)) ps.
Proof.
  intros T New U.
  assert (OK : forall a, In a agents -> agent_ok (h a))
    by (intros a Ia; now apply constructed_agent_ok, New).
  destruct (game_invariant agents h pool
              (fun R g => forall a, In a agents ->
                 0 <= payoff (agents_heap g a) /\
                 exists ps,
                   dict_get (name (h a)) (payoff_history g) = Ok ps /\
                   List.length ps = R /\
                   StronglySorted Qle ps /\
                   Forall (fun p => 0 <= p /\ p <= payoff (agents_heap g a))
                          ps))
    with (R := R) as (g & EG & _ & _ & _ & _ & Inv).
  - intros a Ia. cbn [payoff_history agents_heap]. split.
    + destruct (New a Ia) as (n & c & r & s & -> & _). apply Qle_refl.
    + exists []. split; [now apply empty_history_get|].
      split; [reflexivity|]. split; constructor.
  - intros R' g r EG HR _ Prof _ ER Inv a Ia.
    destruct (Inv a Ia) as (P0 & ps & Gp & Len & Srt & Bnd).
    destruct (payoff_grows_by_rewards agents h pool R' T OK)
      as (g' & r' & EG' & ER' & _ & _ & _ & Mono).
    assert (g' = g) by congruence. subst g'.
    assert (r' = r) by congruence. subst r'.
    specialize (Mono a).
    destruct (round_appends agents h g r U Prof HR ER a Ia)
      as (lp & la & x & sv & Gp0 & _ & _ & _ & _ & Gp' & _).
    assert (lp = ps) by congruence. subst lp.
    split; [lra|].
    exists (ps ++ [payoff (agents_heap (after r) a)]).
    split; [exact Gp'|]. split; [rewrite last_length; now f_equal|]. split.
    + apply StronglySorted_snoc; [exact Srt|].
      eapply Forall_impl; [|exact Bnd]. simpl. intros q [_ Q]. lra.
    + apply Forall_app. split.
      * eapply Forall_impl; [|exact Bnd]. simpl. intros q [Q0 Q]. split; lra.
      * constructor; [split; lra|constructor].
  - exists g. split; [exact EG|]. intros a Ia. now apply Inv.
Qed.

Lemma payoff_history_non_decreasing_witness :
  exists g ps,
    resource_allocation_game main_agents main_heap main_pool 3 = Ok g /\
    dict_get "Agent C"%string (payoff_history g) = Ok ps /\
    StronglySorted Qle ps.
Proof.
  destruct (payoff_history_non_decreasing main_agents main_heap main_pool 3)
    as (g & EG & Seq).
  - reflexivity.
  - exact main_agents_constructed.
  - exact main_names_unique.
  - destruct (Seq 2%nat) as (ps & Gp & _ & Srt & _); [simpl; tauto|].
    exists g, ps. split; [exact EG|]. split; [exact Gp|exact Srt].
Defined.

Lemma game_trace_snoc (agents : list ref) (n : nat) (g : Game) :
  game_trace agents (S n) g
  = (rs <- game_trace agents n g ;;
     g' <- game_rounds agents n g ;;
     r <- game_round agents g' ;;
     Ok (rs ++ [r])).
Proof.
  revert g. induction n as [|n IH]; intros g.
  - cbn [game_trace game_rounds bind].
    destruct (game_round agents g) as [r|e]; reflexivity.
  - change (game_trace agents (S (S n)) g)
      with (r <- game_round agents g ;;
            rs <- game_trace agents (S n) (after r) ;;
            Ok (r :: rs)).
    change (game_trace agents (S n) g)
      with (r <- game_round agents g ;;
            rs <- game_trace agents n (after r) ;;
            Ok (r :: rs)).
    change (game_rounds agents (S n) g)
      with (r <- game_round agents g ;; game_rounds agents n (after r)).
    destruct (game_round agents g) as [r0|e]; [|reflexivity].
    cbn [bind]. rewrite IH.
    destruct (game_trace agents n (after r0)) as [rs|e]; [|reflexivity].
    cbn [bind].
    destruct (game_rounds agents n (after r0)) as [g'|e]; [|reflexivity].
    cbn [bind].
    destruct (game_round agents g') as [r|e]; reflexivity.
Qed.

(** The rounds of a run: how the trace grows with the game. *)
Lemma game_trace_next (agents : list ref) (h : heap) (pool : ResourcePool)
  (R : nat) (g : Game) (r : Round) (rs : list Round) :
  resource_allocation_game agents h pool R = Ok g ->
  game_round agents g = Ok r ->
  game_trace agents R
    (mkGame h pool (empty_history agents h) (empty_history agents h) [])
  = Ok rs ->
  game_trace agents (S R)
    (mkGame h pool (empty_history agents h) (empty_history agents h) [])
  = Ok (rs ++ [r]).
Proof.
  unfold resource_allocation_game. intros EG ER ET.
  rewrite game_trace_snoc, ET, EG. cbn [bind]. now rewrite ER.
Qed.

Lemma filter_snoc_length {A : Type} (f : A -> bool) (l : list A) (x : A) :
  List.length (filter f (l ++ [x]))
  = (List.length (filter f l) + (if f x then 1 else 0))%nat.
Proof.
  rewrite filter_app, length_app. cbn [filter].
  destruct (f x); reflexivity.
Qed.

(** X13: in exact arithmetic, after [R] rounds the strategy of a listed
    agent is its initial strategy times [(11/10)^p * (9/10)^(R - p)],
    where [p] is the number of rounds of the run that paid the agent a
    positive reward: each round scales every listed agent's strategy
    exactly once, up for a positive reward and down otherwise. *)
Theorem game_strategy_closed_form (agents : list ref) (h : heap)
  (pool : ResourcePool) (R : nat) :
  exists g rs,
    resource_allocation_game agents h pool R = Ok g /\
    game_trace agents R
      (mkGame h pool (empty_history agents h) (empty_history agents h) [])
    = Ok rs /\
    List.length rs = R /\
    g = last (map after rs)
          (mkGame h pool (empty_history agents h) (empty_history agents h)
             []) /\
    forall a, In a agents ->
      (List.length (filter (paid_positive (total_resources pool) a) rs)
       <= R)%nat /\
      strategy (agents_heap g a)
      == strategy (h a)
         * Qpow (11 # 10)
             (List.length (filter (paid_positive (total_resources pool) a) rs))
         * Qpow (9 # 10)
             (R - List.length
                    (filter (paid_positive (total_resources pool) a) rs)).
Proof.
  set (g0 := mkGame h pool (empty_history agents h)
               (empty_history agents h) []).
  destruct (game_invariant agents h pool
              (fun R g => exists rs,
                 game_trace agents R g0 = Ok rs /\
                 List.length rs = R /\
                 g = last (map after rs) g0 /\
                 forall a, In a agents ->
                   strategy (agents_heap g a)
                   == strategy (h a)
                      * Qpow (11 # 10)
                          (List.length
                             (filter (paid_positive (total_resources pool) a)
                                rs))
                      * Qpow (9 # 10)
                          (R - List.length
                                 (filter
                                    (paid_positive (total_resources pool) a)
                                    rs))))
    with (R := R) as (g & EG & _ & _ & _ & _ & rs & ET & Len & Last & Inv).
  - exists []. split; [reflexivity|]. split; [reflexivity|].
    split; [reflexivity|]. intros a _. simpl. ring.
  - intros R' g r EG HR Tot _ _ ER (rs & ET & Len & Last & Inv).
    exists (rs ++ [r]).
    split; [exact (game_trace_next _ _ _ _ _ _ _ EG ER ET)|].
    split; [rewrite last_length; now f_equal|].
    split; [rewrite map_app; cbn [map]; now rewrite last_last|].
    intros a Ia.
    destruct (game_round_exact agents g HR)
      as (r' & ER' & Snd & _ & KIa & Eff & _).
    assert (r' = r) by congruence. subst r'.
    destruct Snd as (_ & _ & _ & _ & _ & _ & _ & NDs & KIs & _).
    cbv zeta in KIs.
    destruct (keys_In_entry a (allocation r)) as [x Ix]; [now apply KIa|].
    destruct (keys_In_entry a (shapley_values r)) as [sv Is];
      [now apply KIs|].
    rewrite (Eff a x sv Ix Is), Tot.
    destruct (after_round_fields (agents_heap g a) x
                (sv * total_resources pool))
      as (_ & _ & _ & Up & Down).
    pose proof (filter_length_le (paid_positive (total_resources pool) a) rs)
      as LE. rewrite Len in LE.
    assert (PP : paid_positive (total_resources pool) a r
                 = Qltb 0 (sv * total_resources pool)).
    { unfold paid_positive. now rewrite (dict_get_of_In _ _ _ NDs Is). }
    rewrite filter_snoc_length, PP.
    destruct (Qltb 0 (sv * total_resources pool)) eqn:B.
    + apply Qltb_lt in B. rewrite (Up B), (Inv a Ia).
      rewrite Nat.add_1_r. cbn [Nat.sub Qpow]. ring.
    + apply Qltb_ge in B. rewrite (Down B), (Inv a Ia).
      rewrite Nat.add_0_r, Nat.sub_succ_l by exact LE. cbn [Qpow]. ring.
  - exists g, rs. split; [exact EG|]. split; [exact ET|].
    split; [exact Len|]. split; [exact Last|].
    intros a Ia. split; [|now apply Inv].
    pose proof (filter_length_le (paid_positive (total_resources pool) a) rs)
      as LE.
    now rewrite Len in LE.
Qed.

Lemma inject_nat_succ (k : nat) :
  inject_Z (Z.of_nat (S k)) == inject_Z (Z.of_nat k) + 1.
Proof.
  rewrite Nat2Z.inj_succ. unfold Z.succ. rewrite inject_Z_plus. reflexivity.
Qed.

(** X14: in exact arithmetic, after [R] rounds the aggregate payoff of
    the agents, each counted once, is the initial aggregate plus [k]
    times the pool's total resources, where [k] is the number of rounds
    of the run whose total contribution was positive; so with a
    non-negative total the game never pays out more than [R] times the
    pool. *)
Theorem aggregate_payoff_budget (agents : list ref) (h : heap)
  (pool : ResourcePool) (R : nat) :
  exists g rs,
    resource_allocation_game agents h pool R = Ok g /\
    game_trace agents R
      (mkGame h pool (empty_history agents h) (empty_history agents h) [])
    = Ok rs /\
    List.length rs = R /\
    g = last (map after rs)
          (mkGame h pool (empty_history agents h) (empty_history agents h)
             []) /\
    aggregate_payoff agents (agents_heap g)
    == aggregate_payoff agents h
       + inject_Z (Z.of_nat (List.length (filter productive rs)))
         * total_resources pool /\
    (0 <= total_resources pool ->
       aggregate_payoff agents (agents_heap g)
       <= aggregate_payoff agents h
          + inject_Z (Z.of_nat R) * total_resources pool).
Proof.
  set (g0 := mkGame h pool (empty_history agents h)
               (empty_history agents h) []).
  destruct (game_invariant agents h pool
              (fun R g => exists rs,
                 game_trace agents R g0 = Ok rs /\
                 List.length rs = R /\
                 g = last (map after rs) g0 /\
                 aggregate_payoff agents (agents_heap g)
                 == aggregate_payoff agents h
                    + inject_Z (Z.of_nat (List.length (filter productive rs)))
                      * total_resources pool))
    with (R := R) as (g & EG & _ & _ & _ & _ & rs & ET & Len & Last & Agg).
  - exists []. split; [reflexivity|]. split; [reflexivity|].
    split; [reflexivity|]. cbn [agents_heap]. simpl. ring.
  - intros R' g r EG HR Tot _ _ ER (rs & ET & Len & Last & Agg).
    exists (rs ++ [r]).
    split; [exact (game_trace_next _ _ _ _ _ _ _ EG ER ET)|].
    split; [rewrite last_length; now f_equal|].
    split; [rewrite map_app; cbn [map]; now rewrite last_last|].
    destruct (game_round_sound agents g HR) as (r' & ER' & Snd).
    assert (r' = r) by congruence. subst r'.
    destruct Snd as (_ & _ & _ & _ & _ & TC & SV & ND & KI & Paid & _).
    cbv zeta in Paid. rewrite Tot in Paid.
    destruct (rewards_sum _ _ _ (total_resources pool) SV TC) as [Pos Zero].
    assert (Step : aggregate_payoff agents (agents_heap (after r))
                   == aggregate_payoff agents (agents_heap g)
                      + Qsum (rewards r (total_resources pool))).
    { rewrite !(aggregate_payoff_keys agents _ (keys (shapley_values r))
                  ND KI).
      now apply paid_sum. }
    unfold rewards in Step.
    rewrite filter_snoc_length.
    change (productive r) with (Qltb 0 (total_contribution r)).
    destruct (Qltb 0 (total_contribution r)) eqn:B.
    + apply Qltb_lt in B.
      rewrite Step, (Pos B), Agg, Nat.add_1_r, inject_nat_succ. ring.
    + apply Qltb_ge in B.
      assert (N : ~ 0 < total_contribution r) by (intros P; lra).
      rewrite Step, (Qsum_all_zero _ (Zero N)), Agg, Nat.add_0_r. ring.
  - exists g, rs. split; [exact EG|]. split; [exact ET|].
    split; [exact Len|]. split; [exact Last|].
    split; [exact Agg|]. intros T. rewrite Agg.
    assert ((List.length (filter productive rs) <= R)%nat) as LE.
    { pose proof (filter_length_le productive rs) as LE.
      now rewrite Len in LE. }
    assert (inject_Z (Z.of_nat (List.length (filter productive rs)))
            <= inject_Z (Z.of_nat R)).
    { rewrite <- Zle_Qle. lia. }
    assert (inject_Z (Z.of_nat (List.length (filter productive rs)))
              * total_resources pool
            <= inject_Z (Z.of_nat R) * total_resources pool)
      by (apply Qmult_le_compat_r; assumption).
    lra.
Qed.

(** ** visualize_results *)

Lemma keys_nil {K V : Type} (d : dict K V) : keys d = [] -> d = [].
Proof. destruct d; [reflexivity|discriminate]. Qed.

(** X15: the round count [visualize_results] reads off the first payoff
    sequence (line 98).  On the histories a run of [R] rounds returns it
    is [R] when the agent list is not empty and distinct agents bear
    distinct names, and then every sequence of both histories has
    exactly that length; with an empty agent list both histories are
    empty and the read raises [StopIteration]. *)
Theorem plotted_rounds_of_game (agents : list ref) (h : heap)
  (pool : ResourcePool) (R : nat) :
  exists g,
    resource_allocation_game agents h pool R = Ok g /\
    (agents = [] ->
       payoff_history g = [] /\ allocation_history g = [] /\
       plotted_rounds (payoff_history g) = None) /\
    (agents <> [] -> unique_names agents h ->
       plotted_rounds (payoff_history g) = Some R /\
       forall n l,
         In (n, l) (payoff_history g) \/ In (n, l) (allocation_history g) ->
         List.length l = R).
Proof.
  unfold resource_allocation_game.
  destruct (game_rounds_returns agents R _
              (empty_history_ready agents h pool []))
    as (g & EG & _ & _ & _ & _ & Kp & Ka & Hist).
  cbn [payoff_history allocation_history agents_heap] in Kp, Ka, Hist.
  exists g. split; [exact EG|]. split.
  - intros ->. unfold empty_history, dict_of_list in Kp, Ka.
    simpl in Kp, Ka. apply keys_nil in Kp, Ka.
    rewrite Kp, Ka. now repeat split.
  - intros NE U.
    assert (Len : forall n l,
              In (n, l) (payoff_history g) \/ In (n, l) (allocation_history g)
              -> List.length l = R).
    { intros n l I.
      assert (In n (keys (empty_history agents h))) as In_n.
      { destruct I as [I|I]; apply In_keys in I; congruence. }
      apply empty_history_keys in In_n. destruct In_n as (a & Ia & <-).
      destruct (Hist U a [] [] Ia (empty_history_get agents h a Ia)
                  (empty_history_get agents h a Ia))
        as (ps & als & Gp & Ga & Lp & La).
      simpl in Gp, Ga.
      assert (NDp : NoDup (keys (payoff_history g)))
        by (rewrite Kp; apply dict_of_list_NoDup).
      assert (NDa : NoDup (keys (allocation_history g)))
        by (rewrite Ka; apply dict_of_list_NoDup).
      destruct I as [I|I].
      - apply (dict_get_of_In _ _ _ NDp) in I. congruence.
      - apply (dict_get_of_In _ _ _ NDa) in I. congruence. }
    split; [|exact Len].
    unfold plotted_rounds.
    destruct (payoff_history g) as [|[n l] d] eqn:PH.
    + exfalso. destruct agents as [|a agents]; [now apply NE|].
      assert (In (name (h a)) (keys (empty_history (a :: agents) h))).
      { apply empty_history_keys. exists a. split; [now left|reflexivity]. }
      rewrite <- Kp in H. contradiction.
    + cbn [values map snd]. f_equal. apply (Len n l). left. now left.
Qed.

(** ** The pool and the value shares of a round *)

(** X16: in exact arithmetic, on a pool with non-negative total
    resources, every round starts from the full total, whatever the round before left: no bid of the
    round exceeds the total, the round hands out the smaller of the sum
    of its bids and the total, and it leaves in the pool the larger of
    their difference and zero. *)
Theorem game_round_pool (agents : list ref) (h : heap)
  (pool : ResourcePool) (R : nat) :
  0 <= total_resources pool ->
  exists g r,
    resource_allocation_game agents h pool R = Ok g /\
    game_round agents g = Ok r /\
    resource_allocation_game agents h pool (S R) = Ok (after r) /\
    (forall a b, In (a, b) (bids r) -> b <= total_resources pool) /\
    pysum (values (allocation r))
    == Qmin (pysum (values (bids r))) (total_resources pool) /\
    remaining_resources (resource_pool (after r))
    == Qmax (total_resources pool - pysum (values (bids r))) 0 /\
    total_resources (resource_pool (after r)) = total_resources pool.
Proof.
  intros T.
  destruct (game_ready agents h pool R) as (g & EG & HR & Tot & _).
  destruct (game_round_sound agents g HR) as (r & ER & Snd).
  exists g, r. split; [exact EG|]. split; [exact ER|].
  split; [exact (game_next _ _ _ _ _ _ EG ER)|].
  destruct Snd as (EB & EA & Tot' & _).
  cbv zeta in *. rewrite Tot in *.
  split; [|split; [|split; [|exact Tot']]].
  - intros a b I. rewrite EB in I. apply round_bids_In in I.
    destruct I as [_ ->]. apply pymin_le_r.
  - destruct (Qlt_le_dec (total_resources pool) (pysum (values (bids r))))
      as [L|L].
    + assert (NZ : ~ pysum (values (bids r)) == 0) by lra.
      destruct (allocate_shortfall (replenish (resource_pool g)) (bids r))
        as [E S]; cbn [replenish remaining_resources]; rewrite ?Tot;
        try assumption.
      cbn [replenish remaining_resources total_resources] in E, S.
      rewrite Tot in E, S. rewrite E in EA. inversion EA as [[EAl EPl]].
      rewrite S. symmetry. apply Q.min_r. lra.
    + rewrite (allocate_enough (replenish (resource_pool g)) (bids r)) in EA
        by (cbn [replenish remaining_resources]; now rewrite Tot).
      inversion EA as [[EAl EPl]]. symmetry. now apply Q.min_l.
  - destruct (Qlt_le_dec (total_resources pool) (pysum (values (bids r))))
      as [L|L].
    + assert (NZ : ~ pysum (values (bids r)) == 0) by lra.
      destruct (allocate_shortfall (replenish (resource_pool g)) (bids r))
        as [E S]; cbn [replenish remaining_resources]; rewrite ?Tot;
        try assumption.
      cbn [replenish remaining_resources total_resources] in E, S.
      rewrite Tot in E, S. rewrite E in EA. inversion EA as [[EAl EPl]].
      cbn [remaining_resources]. rewrite S, Q.max_r by lra. ring.
    + rewrite (allocate_enough (replenish (resource_pool g)) (bids r)) in EA
        by (cbn [replenish remaining_resources]; now rewrite Tot).
      inversion EA as [[EAl EPl]].
      cbn [replenish remaining_resources]. rewrite Tot.
      rewrite Q.max_l by lra. reflexivity.
Qed.

Lemma game_round_pool_witness :
  exists g r,
    resource_allocation_game main_agents main_heap main_pool 1 = Ok g /\
    game_round main_agents g = Ok r /\
    remaining_resources (resource_pool (after r))
    == Qmax (30 - pysum (values (bids r))) 0.
Proof.
  destruct (game_round_pool main_agents main_heap main_pool 1)
    as (g & r & EG & ER & _ & _ & _ & Rem & _).
  - simpl. discriminate.
  - exists g, r. split; [exact EG|]. split; [exact ER|exact Rem].
Defined.

(** X17: in every round the contribution of a listed agent is its
    capability times its allocation of the round, and its value share is
    that contribution divided by the round's total contribution when the
    total is positive and 0 otherwise; the total is the sum of the
    contributions. *)
Theorem game_round_shares (agents : list ref) (h : heap)
  (pool : ResourcePool) (R : nat) :
  exists g r,
    resource_allocation_game agents h pool R = Ok g /\
    game_round agents g = Ok r /\
    resource_allocation_game agents h pool (S R) = Ok (after r) /\
    total_contribution r = pysum (values (contributions r)) /\
    forall a, In a agents ->
      exists x sv,
        dict_get a (allocation r) = Ok x /\
        dict_get a (contributions r) = Ok (capability (h a) * x) /\
        dict_get a (shapley_values r) = Ok sv /\
        (0 < total_contribution r ->
           sv = capability (h a) * x / total_contribution r) /\
        (total_contribution r <= 0 -> sv = 0).
Proof.
  destruct (game_ready agents h pool R) as (g & EG & HR & Tot & Prof).
  destruct (game_round_exact agents g HR)
    as (r & ER & Snd & NDa & KIa & _).
  exists g, r. split; [exact EG|]. split; [exact ER|].
  split; [exact (game_next _ _ _ _ _ _ EG ER)|].
  destruct Snd as (_ & _ & _ & _ & EC & TC & SV & NDs & KIs & _).
  cbv zeta in *. split; [exact TC|]. intros a Ia.
  assert (NDc : NoDup (keys (contributions r)))
    by (rewrite EC; apply round_contributions_NoDup).
  destruct (keys_In_entry a (allocation r)) as [x Ix]; [now apply KIa|].
  destruct (keys_In_entry a (shapley_values r)) as [sv Is]; [now apply KIs|].
  assert (Gx : dict_get a (allocation r) = Ok x)
    by now apply dict_get_of_In.
  assert (Cap : capability (agents_heap g a) = capability (h a))
    by apply Prof.
  assert (Contribution :
            forall c, In (a, c) (contributions r) ->
                      c = capability (h a) * x).
  { intros c Ic. rewrite EC in Ic. apply round_contributions_In in Ic.
    destruct Ic as (y & Iy & ->). rewrite Cap.
    apply (dict_get_of_In _ _ _ NDa) in Iy. congruence. }
  destruct (compute_shapley_value_returns (contributions r)
              (total_contribution r)) as (shares & E & K & Pos & Zero).
  assert (shares = shapley_values r) by congruence. subst shares.
  assert (Ic : exists c, In (a, c) (contributions r)).
  { apply keys_In_entry. rewrite <- K. eapply In_keys, Is. }
  destruct Ic as [c Ic]. pose proof (Contribution c Ic) as ->.
  exists x, sv. split; [exact Gx|].
  split; [now apply dict_get_of_In|].
  split; [now apply dict_get_of_In|]. split.
  - intros P. rewrite (Pos P) in Is. apply in_map_iff in Is.
    destruct Is as ([a' c'] & Eq & Ic'). cbn [fst snd] in Eq.
    inversion Eq; subst. now rewrite (Contribution c' Ic').
  - intros NP. rewrite Zero in Is by (intros P; lra).
    apply in_map_iff in Is. destruct Is as (kv & Eq & _). now inversion Eq.
Qed.
